(** * paper.Selection (engine/src/view/paper-ext/Paper.Selection.js)

    A shallow embedding of the selection class of the Wick engine and the
    properties its specification states about it.

    Conventions of the model.
    - A JavaScript number is an IEEE 754 binary64 double: a primitive
      float, with its rounding, its two infinities, NaN and its signed
      zero. The coordinates of points and rectangles and the fields of a
      transformation are such numbers; a field can also be [null], which
      is what [JSON.stringify] makes of a number that is not finite.
    - The scene graph (paper.js items and layers), the console and the
      selection GUI are collaborators of the class. The scene graph is a
      record of the properties the class reads and of the children of each
      layer, which the ordering methods rearrange; the selected items are
      children of their layers. The console and the GUI are observed
      through the trace of the calls made on them; what a GUI does to the
      scene graph is its own business and is not tracked: the nodes of a
      GUI are not among the items of the record, and where the constructor
      hands the root node of its GUI to the layer, the call is recorded.
    - A method either returns or throws; both leave a state behind. *)

From Stdlib Require Import Floats ZArith Reals Lra Lia List Permutation Sorted String Bool Arith.
Import ListNotations.

Set Implicit Arguments.

(** ** JavaScript numbers as far as the class computes with them *)

Module JS.

Local Open Scope float_scope.

Definition number := float.
Bind Scope float_scope with number.

(** A transformation field: a number, or the [null] that the JSON copy of
    the transformation getter leaves in place of a non-finite number. *)
Inductive value := Num (n : number) | Null.

Definition ToNumber (v : value) : number :=
  match v with
  | Num n => n
  | Null => 0
  end.

(** [a + b], [a - b], [a * b], [a / b] *)
Definition add (a b : number) : number := a + b.
Definition sub (a b : number) : number := a - b.
Definition mul (a b : number) : number := a * b.
Definition div (a b : number) : number := a / b.

(** The double [-0]. *)
Definition is_negzero (a : number) : bool :=
  match Prim2SF a with
  | S754_zero true => true
  | _ => false
  end.

(** [Math.min(a, b)]: NaN when either number is NaN; [-0] counts as
    smaller than [+0]. *)
Definition Math_min (a b : number) : number :=
  if is_nan a || is_nan b then nan
  else if (a <? b) || ((a =? b) && is_negzero a) then a else b.

(** [Math.max(a, b)], with NaN and the zeros treated likewise. *)
Definition Math_max (a b : number) : number :=
  if is_nan a || is_nan b then nan
  else if (b <? a) || ((a =? b) && is_negzero b) then a else b.

(** Truthiness, as tested by [v || default]: [0], [-0], [NaN] and [null]
    are falsy. *)
Definition truthy (v : value) : bool :=
  match v with
  | Num n => negb (is_nan n || is_zero n)
  | Null => false
  end.

(** [v || d] for a property [v] that may be absent ([None] is
    [undefined]). *)
Definition or_default (v : option value) (d : value) : value :=
  match v with
  | Some v => if truthy v then v else d
  | None => d
  end.

(** [JSON.parse(JSON.stringify(v))] on one field: a number that is not
    finite is serialised as [null], both zeros as [0], and every other
    number as a decimal that reads back as the same double. *)
Definition json_roundtrip (v : value) : value :=
  match v with
  | Num n => if is_finite n then (if is_zero n then Num 0 else Num n) else Null
  | Null => Null
  end.

Inductive exn := TypeError (msg : string).

(** How a call ends. *)
Inductive completion (A : Type) :=
| Return (a : A)
| Throw (e : exn).
Arguments Throw {A} e.

End JS.

(** ** Geometry: paper.Point and paper.Rectangle *)

Module Geometry.

Import JS.
Local Open Scope float_scope.

Record Point := mkPoint { px : number; py : number }.

(** [new paper.Point(arg0, arg1)] on two transformation fields. paper.js
    takes [arg0] and [arg1] as they are when [arg0] is a number (and
    [arg0] twice when [arg1] is not one), and builds [(0, 0)] when [arg0]
    is [null]. *)
Definition new_Point (arg0 arg1 : value) : Point :=
  match arg0 with
  | Num a =>
      match arg1 with
      | Num b => mkPoint a b
      | Null => mkPoint a a
      end
  | Null => mkPoint 0 0
  end.

(** [point.subtract(other)] *)
Definition subtract (p q : Point) : Point :=
  mkPoint (sub (px p) (px q)) (sub (py p) (py q)).

(** A rectangle is stored as its top-left corner and its size. *)
Record Rectangle := mkRect { rx : number; ry : number; width : number; height : number }.

(** [new paper.Rectangle()] *)
Definition empty_rectangle : Rectangle := mkRect 0 0 0 0.

Definition topLeft (r : Rectangle) : Point := mkPoint (rx r) (ry r).

Definition center (r : Rectangle) : Point :=
  mkPoint (add (rx r) (div (width r) 2)) (add (ry r) (div (height r) 2)).


(** [rect.unite(other)]: paper.js takes the extreme edges,
    [x1 = Math.min(this.x, rect.x)], [x2 = Math.max(this.x + this.width,
    rect.x + rect.width)], and builds [new Rectangle(x1, y1, x2 - x1,
    y2 - y1)]. *)
Definition unite (a b : Rectangle) : Rectangle :=
  let x1 := Math_min (rx a) (rx b) in
  let y1 := Math_min (ry a) (ry b) in
  let x2 := Math_max (add (rx a) (width a)) (add (rx b) (width b)) in
  let y2 := Math_max (add (ry a) (height a)) (add (ry b) (height b)) in
  mkRect x1 y1 (sub x2 x1) (sub y2 y1).

(** A 2D affine matrix [a b c d tx ty] as in paper.Matrix. *)
Record Matrix := mkMatrix {
  ma : number; mb : number; mc : number; md : number; mtx : number; mty : number
}.

(** [matrix._transformPoint(point)]:
    [x * a + y * c + tx], [x * b + y * d + ty]. *)
Definition transformPoint (m : Matrix) (p : Point) : Point :=
  mkPoint (add (add (mul (px p) (ma m)) (mul (py p) (mc m))) (mtx m))
          (add (add (mul (px p) (mb m)) (mul (py p) (md m))) (mty m)).

(** [point.transform(matrix)]: paper.js returns
    [matrix ? matrix._transformPoint(this) : this]; an undefined matrix is
    [None]. *)
Definition transform (p : Point) (m : option Matrix) : Point :=
  match m with
  | Some m => transformPoint m p
  | None => p
  end.

End Geometry.

(** ** The transformation object *)

Module Transform.

Import JS.

Record Transformation := mkTransformation {
  x : value; y : value;
  scaleX : value; scaleY : value;
  rotation : value;
  originX : value; originY : value
}.

(** An object literal naming some of the fields, as passed to
    [updateTransformation]. *)
Record Partial := mkPartial {
  new_x : option value; new_y : option value;
  new_scaleX : option value; new_scaleY : option value;
  new_rotation : option value;
  new_originX : option value; new_originY : option value
}.

Definition overwrite (old : value) (new : option value) : value :=
  match new with
  | Some v => v
  | None => old
  end.

(** [Object.assign(target, source)] *)
Definition assign (target : Transformation) (source : Partial) : Transformation :=
  mkTransformation
    (overwrite (x target) (new_x source))
    (overwrite (y target) (new_y source))
    (overwrite (scaleX target) (new_scaleX source))
    (overwrite (scaleY target) (new_scaleY source))
    (overwrite (rotation target) (new_rotation source))
    (overwrite (originX target) (new_originX source))
    (overwrite (originY target) (new_originY source)).

(** [JSON.parse(JSON.stringify(t))] *)
Definition json_copy (t : Transformation) : Transformation :=
  mkTransformation
    (json_roundtrip (x t)) (json_roundtrip (y t))
    (json_roundtrip (scaleX t)) (json_roundtrip (scaleY t))
    (json_roundtrip (rotation t))
    (json_roundtrip (originX t)) (json_roundtrip (originY t)).

End Transform.

(** ** The scene graph, the console and the selection GUI *)

Module Scene.

Import Geometry JS Transform.

(** A paper.Item is known by its identity. *)
Definition Item := nat.

(** The value of a path attribute ([fillColor], [strokeColor],
    [strokeWidth]). *)
Inductive attr := attr_undefined | attr_color (css : string) | attr_number (n : number).

(** Calls made on the console, on selection GUIs and on the layer that
    receives a GUI's root node. *)
Inductive event :=
| console_log (msg : string)
| console_error (msg : string)
| SelectionGUI_new (gui : nat) (items : list Item)
    (transformation : Transformation) (bounds : Rectangle)
| SelectionGUI_destroy (gui : nat)
| Layer_addChild (layer : nat) (gui : nat).

Record World := mkWorld {
  activeLayer : nat;                       (* paper.project.activeLayer *)
  item_layer : Item -> option nat;         (* id of item.layer, None when it is null *)
  layer_children : nat -> list Item;       (* children of a layer, back to front *)
  item_bounds : Item -> Rectangle;         (* item.bounds *)
  item_attr : Item -> string -> attr;      (* item[attributeName] *)
  trace : list event;                      (* calls made so far, oldest first *)
  next_gui : nat                           (* identity of the next GUI built *)
}.

Definition emit (e : event) (w : World) : World :=
  mkWorld (activeLayer w) (item_layer w) (layer_children w) (item_bounds w)
          (item_attr w) (trace w ++ [e]) (next_gui w).

Definition fresh_gui (w : World) : nat * World :=
  (next_gui w,
   mkWorld (activeLayer w) (item_layer w) (layer_children w) (item_bounds w)
           (item_attr w) (trace w) (S (next_gui w))).

Definition set_children (layer : nat) (ch : list Item) (w : World) : World :=
  mkWorld (activeLayer w) (item_layer w)
          (fun k => if Nat.eqb k layer then ch else layer_children w k)
          (item_bounds w) (item_attr w) (trace w) (next_gui w).

Definition set_attr (i : Item) (name : string) (v : attr) (w : World) : World :=
  mkWorld (activeLayer w) (item_layer w) (layer_children w) (item_bounds w)
          (fun j n => if Nat.eqb j i && String.eqb n name then v else item_attr w j n)
          (trace w) (next_gui w).

Definition mem (i : Item) (l : list Item) : bool := existsb (Nat.eqb i) l.

(** Position of the first occurrence of [i] in [l] ([length l] when there
    is none). *)
Fixpoint index_in (i : Item) (l : list Item) : nat :=
  match l with
  | [] => 0
  | j :: t => if Nat.eqb i j then 0 else S (index_in i t)
  end.

(** [l] without [i]. *)
Definition without (i : Item) (l : list Item) : list Item :=
  filter (fun j => negb (Nat.eqb j i)) l.

(** [l] with [i] put right after the first occurrence of [target]. *)
Fixpoint put_after (target i : Item) (l : list Item) : list Item :=
  match l with
  | [] => []
  | j :: t => if Nat.eqb j target then j :: i :: t else j :: put_after target i t
  end.

(** [l] with [i] put right before the first occurrence of [target]. *)
Fixpoint put_before (target i : Item) (l : list Item) : list Item :=
  match l with
  | [] => []
  | j :: t => if Nat.eqb j target then i :: j :: t else j :: put_before target i t
  end.

(** [item.index]: the position of the item among the children of its
    layer. *)
Definition index (w : World) (i : Item) : nat :=
  match item_layer w i with
  | Some l => index_in i (layer_children w l)
  | None => 0
  end.

(** [item.nextSibling]: [owner._children[this._index + 1] || null]. *)
Definition nextSibling (w : World) (i : Item) : option Item :=
  match item_layer w i with
  | Some l => nth_error (layer_children w l) (S (index w i))
  | None => None
  end.

(** [item.previousSibling]: [owner._children[this._index - 1] || null]. *)
Definition previousSibling (w : World) (i : Item) : option Item :=
  match item_layer w i with
  | Some l =>
      match index w i with
      | O => None
      | S n => nth_error (layer_children w l) n
      end
  | None => None
  end.

(** Take [i] out of the children of its layer. *)
Definition detach (i : Item) (w : World) : World :=
  match item_layer w i with
  | Some l => set_children l (without i (layer_children w l)) w
  | None => w
  end.

(** [item.insertAbove(target)]: the item is taken out of its owner and put
    directly above [target] among the children of the owner of [target]. *)
Definition insertAbove (i target : Item) (w : World) : World :=
  match item_layer w target with
  | Some l =>
      let w1 := detach i w in
      set_children l (put_after target i (layer_children w1 l)) w1
  | None => w
  end.

(** [item.insertBelow(target)] *)
Definition insertBelow (i target : Item) (w : World) : World :=
  match item_layer w target with
  | Some l =>
      let w1 := detach i w in
      set_children l (put_before target i (layer_children w1 l)) w1
  | None => w
  end.

(** [item.bringToFront()]: the item becomes the last child of its owner. *)
Definition bringToFront (i : Item) (w : World) : World :=
  match item_layer w i with
  | Some l => set_children l (without i (layer_children w l) ++ [i]) w
  | None => w
  end.

(** [item.sendToBack()]: the item becomes the first child of its owner. *)
Definition sendToBack (i : Item) (w : World) : World :=
  match item_layer w i with
  | Some l => set_children l (i :: without i (layer_children w l)) w
  | None => w
  end.

(** Every child of a layer has that layer as its [item.layer], and every
    item with a layer is among its children. *)
Definition well_formed (w : World) : Prop :=
  forall (i : Item) (l : nat), item_layer w i = Some l <-> In i (layer_children w l).

End Scene.

(** ** paper.Selection *)

Module Selection.

Import Geometry JS Scene.
Import Transform(Transformation, mkTransformation, Partial, mkPartial).

Local Open Scope string_scope.
Local Open Scope list_scope.

(** The constructor's [args]; an absent property is [None]. *)
Record Args := mkArgs {
  arg_layer : option nat;
  arg_items : option (list Item);
  arg_x : option value; arg_y : option value;
  arg_scaleX : option value; arg_scaleY : option value;
  arg_rotation : option value;
  arg_originX : option value; arg_originY : option value
}.

Definition no_args : Args := mkArgs None None None None None None None None None.

(** The properties of a selection object. [_gui] and [_matrix] are absent
    ([None]) until something assigns them. *)
Record Selection := mkSelection {
  _lockScalingToAspectRatio : bool;
  _layer : nat;
  _items : list Item;
  _transformation : Transformation;
  _untransformedBounds : Rectangle;
  _gui : option nat;
  _matrix : option Matrix
}.

Definition with_items (items : list Item) (s : Selection) : Selection :=
  mkSelection (_lockScalingToAspectRatio s) (_layer s) items (_transformation s)
              (_untransformedBounds s) (_gui s) (_matrix s).

Definition with_transformation (t : Transformation) (s : Selection) : Selection :=
  mkSelection (_lockScalingToAspectRatio s) (_layer s) (_items s) t
              (_untransformedBounds s) (_gui s) (_matrix s).

Definition with_gui (g : nat) (s : Selection) : Selection :=
  mkSelection (_lockScalingToAspectRatio s) (_layer s) (_items s) (_transformation s)
              (_untransformedBounds s) (Some g) (_matrix s).


(** *** Methods run on [this] and on the world; a throw keeps what was
    done before it. *)

Definition M (A : Type) : Type :=
  Selection * World -> completion A * (Selection * World).

Definition ret {A} (a : A) : M A := fun st => (Return a, st).

Definition bind {A B} (m : M A) (k : A -> M B) : M B :=
  fun st =>
    match m st with
    | (Return a, st') => k a st'
    | (Throw e, st') => (Throw e, st')
    end.

Definition throw {A} (e : exn) : M A := fun st => (Throw e, st).

Definition this : M Selection := fun st => (Return (fst st), st).
Definition world : M World := fun st => (Return (snd st), st).

Definition update_this (f : Selection -> Selection) : M unit :=
  fun st => (Return tt, (f (fst st), snd st)).

Definition update_world (f : World -> World) : M unit :=
  fun st => (Return tt, (fst st, f (snd st))).

Declare Scope js_scope.
Delimit Scope js_scope with js.
Notation "x <- m ;; k" := (bind m (fun x => k))
  (at level 61, m at next level, right associativity) : js_scope.
Notation "m ;; k" := (bind m (fun _ => k))
  (at level 61, right associativity) : js_scope.
Local Open Scope js_scope.

(** [array.forEach(f)] *)
Fixpoint forEach {A} (l : list A) (f : A -> M unit) : M unit :=
  match l with
  | [] => ret tt
  | a :: t => f a ;; forEach t f
  end.

(** *** Helper functions *)

(** [_getBoundsOfItems]: [bounds] starts as [null] and is united with the
    bounds of each item in turn. *)
Definition _getBoundsOfItems (w : World) (items : list Item) : Rectangle :=
  match items with
  | [] => empty_rectangle
  | _ =>
      let bounds :=
        fold_left
          (fun (bounds : option Rectangle) item =>
             match bounds with
             | Some b => Some (unite b (item_bounds w item))
             | None => Some (item_bounds w item)
             end)
          items None in
      match bounds with
      | Some b => b
      | None => empty_rectangle   (* not reached: [items] is not empty *)
      end
  end.

(** The object [layerLists], used as a map from layer id to the list of
    items seen in that layer. Its [for ... in] enumeration visits integer
    keys in ascending order, so the entries are kept in that order. *)
Fixpoint push (layerID : nat) (item : Item) (layerLists : list (nat * list Item))
  : list (nat * list Item) :=
  match layerLists with
  | [] => [(layerID, [item])]
  | (k, l) :: rest =>
      if Nat.eqb layerID k then (k, l ++ [item]) :: rest
      else if Nat.ltb layerID k then (layerID, [item]) :: layerLists
      else (k, l) :: push layerID item rest
  end.

Fixpoint group_by_layer (w : World) (items : list Item)
    (layerLists : list (nat * list Item)) : completion (list (nat * list Item)) :=
  match items with
  | [] => Return layerLists
  | item :: rest =>
      match item_layer w item with
      | Some layerID => group_by_layer w rest (push layerID item layerLists)
      | None => Throw (TypeError "Cannot read properties of null (reading 'id')")
      end
  end.

(** [_sortItemsByLayer] *)
Definition _sortItemsByLayer (w : World) (items : list Item)
  : completion (list (list Item)) :=
  match group_by_layer w items [] with
  | Return layerLists => Return (map snd layerLists)
  | Throw e => Throw e
  end.

(** Stable insertion into a list sorted by [key]. *)
Fixpoint insert_sorted (key : Item -> nat) (a : Item) (l : list Item) : list Item :=
  match l with
  | [] => [a]
  | b :: t => if Nat.leb (key a) (key b) then a :: l else b :: insert_sorted key a t
  end.

(** [_sortItemsByZIndex]: [items.sort((a, b) => a.index - b.index)]. *)
Definition _sortItemsByZIndex (w : World) (items : list Item) : list Item :=
  fold_right (insert_sorted (index w)) [] items.

(** *** GUI *)

(** [_rebuild] *)
Definition _rebuild : M unit :=
  s <- this ;;
  match _gui s with
  | Some g => update_world (emit (SelectionGUI_destroy g))
  | None => ret tt
  end ;;
  w <- world ;;
  let (g, w') := fresh_gui w in
  update_world (fun _ =>
    emit (SelectionGUI_new g (_items s) (_transformation s) (_untransformedBounds s)) w') ;;
  update_this (with_gui g) ;;
  match _items s with
  | [] => ret tt
  | _ => update_world (emit (Layer_addChild (_layer s) g))
  end.

(** [_destroy] *)
Definition _destroy : M unit :=
  s <- this ;;
  match _gui s with
  | Some g => update_world (emit (SelectionGUI_destroy g))
  | None => throw (TypeError "Cannot read properties of undefined (reading 'destroy')")
  end.

(** The class defines no [_create]: the call [this._create()] of the
    transformation setter finds [undefined] where it expects a function. *)
Definition _create : M unit :=
  throw (TypeError "this._create is not a function").

(** *** Constructor *)

Definition new_Selection (args : option Args) (w : World)
  : completion unit * (Selection * World) :=
  let w := emit (console_log "Created Selection") w in
  let args := match args with Some a => a | None => no_args end in
  let layer := match arg_layer args with Some l => l | None => activeLayer w end in
  let items := match arg_items args with Some l => l | None => [] end in
  let bounds := _getBoundsOfItems w items in
  let originX :=
    match arg_originX args with
    | Some v => v
    | None => Num (px (center bounds))
    end in
  let originY :=
    match arg_originY args with
    | Some v => v
    | None => Num (py (center bounds))
    end in
  let t :=
    mkTransformation
      (or_default (arg_x args) (Num 0))
      (or_default (arg_y args) (Num 0))
      (or_default (arg_scaleX args) (Num 1))
      (or_default (arg_scaleY args) (Num 1))
      (or_default (arg_rotation args) (Num 0))
      originX originY in
  _rebuild (mkSelection false layer items t bounds None None, w).

(** *** Accessors *)

(** [get layer] *)
Definition layer (s : Selection) : nat := _layer s.

(** [get items] *)
Definition items (s : Selection) : list Item := _items s.

(** [set items] *)
Definition set_items (items : list Item) : M unit :=
  _destroy ;;
  update_this (with_items items).

(** [get transformation] *)
Definition transformation (s : Selection) : Transformation :=
  Transform.json_copy (_transformation s).

(** [set transformation] *)
Definition set_transformation (transformation : Transformation) : M unit :=
  _destroy ;;
  update_this (with_transformation transformation) ;;
  _create.

(** [updateTransformation] *)
Definition updateTransformation (newTransformation : Partial) : M unit :=
  s <- this ;;
  set_transformation (Transform.assign (transformation s) newTransformation).

(** [get lockScalingToAspectRatio] *)
Definition lockScalingToAspectRatio (s : Selection) : bool :=
  _lockScalingToAspectRatio s.


(** [get position] *)
Definition position (s : Selection) : Point :=
  transform (topLeft (_untransformedBounds s)) (_matrix s).

(** [set position] *)
Definition set_position (position' : Point) : M unit :=
  s <- this ;;
  let d := subtract position' (position s) in
  updateTransformation
    (mkPartial
       (Some (Num (add (ToNumber (Transform.x (transformation s))) (px d))))
       (Some (Num (add (ToNumber (Transform.y (transformation s))) (py d))))
       None None None None None).

(** [get width] *)
Definition width (s : Selection) : number :=
  mul (Geometry.width (_untransformedBounds s))
      (ToNumber (Transform.scaleX (transformation s))).

(** [set width] *)
Definition set_width (width' : number) : M unit :=
  s <- this ;;
  let d := div (width s) width' in
  updateTransformation
    (mkPartial None None
       (Some (Num (div (ToNumber (Transform.scaleX (transformation s))) d)))
       None None None None).

(** [get height] *)
Definition height (s : Selection) : number :=
  mul (Geometry.height (_untransformedBounds s))
      (ToNumber (Transform.scaleY (transformation s))).

(** [set height] *)
Definition set_height (height' : number) : M unit :=
  s <- this ;;
  let d := div (height s) height' in
  updateTransformation
    (mkPartial None None None
       (Some (Num (div (ToNumber (Transform.scaleY (transformation s))) d)))
       None None None).

(** [get scaleX] *)
Definition scaleX (s : Selection) : value := Transform.scaleX (transformation s).

(** [set scaleX] *)
Definition set_scaleX (v : value) : M unit :=
  updateTransformation (mkPartial None None (Some v) None None None None).

(** [get scaleY] *)
Definition scaleY (s : Selection) : value := Transform.scaleY (transformation s).

(** [set scaleY] *)
Definition set_scaleY (v : value) : M unit :=
  updateTransformation (mkPartial None None None (Some v) None None None).

(** [get rotation] *)
Definition rotation (s : Selection) : value := Transform.rotation (transformation s).

(** [set rotation] *)
Definition set_rotation (v : value) : M unit :=
  updateTransformation (mkPartial None None None None (Some v) None None).

(** [getPathAttribute]: after the diagnostic the method goes on to read
    [this.items[0][attributeName]]; with no first item that is a property
    read on [undefined]. *)
Definition getPathAttribute (attributeName : string) : M attr :=
  s <- this ;;
  (if Nat.eqb (List.length (items s)) 0
   then update_world (emit (console_error "getPathAttribute(): Nothing in the selection!"))
   else ret tt) ;;
  match nth_error (items s) 0 with
  | Some item => w <- world ;; ret (item_attr w item attributeName)
  | None => throw (TypeError "Cannot read properties of undefined")
  end.

(** [setPathAttrribute] *)
Definition setPathAttrribute (attributeName : string) (attributeValue : attr) : M unit :=
  s <- this ;;
  forEach (items s) (fun item => update_world (set_attr item attributeName attributeValue)).

(** [get fillColor], [get strokeColor], [get strokeWidth] *)
Definition fillColor : M attr := getPathAttribute "fillColor".
Definition strokeColor : M attr := getPathAttribute "strokeColor".
Definition strokeWidth : M attr := getPathAttribute "strokeWidth".

(** [set fillColor], [set strokeColor], [set strokeWidth] *)
Definition set_fillColor (v : attr) : M unit := setPathAttrribute "fillColor" v.
Definition set_strokeColor (v : attr) : M unit := setPathAttrribute "strokeColor" v.
Definition set_strokeWidth (v : attr) : M unit := setPathAttrribute "strokeWidth" v.

(** *** Ordering *)

(** [_sortItemsByLayer(this._items).forEach(visit)], which throws before
    the first visit when an item has no layer. *)
Definition forEach_layer (visit : list Item -> M unit) : M unit :=
  s <- this ;;
  w <- world ;;
  match _sortItemsByLayer w (_items s) with
  | Return layerItemsArrays => forEach layerItemsArrays visit
  | Throw e => throw e
  end.

(** [moveForwards] *)
Definition moveForwards : M unit :=
  forEach_layer (fun items =>
    w <- world ;;
    forEach (rev (_sortItemsByZIndex w items)) (fun item =>
      s <- this ;;
      w <- world ;;
      match nextSibling w item with
      | Some sibling =>
          if negb (mem sibling (_items s))
          then update_world (insertAbove item sibling)
          else ret tt
      | None => ret tt
      end)).

(** [moveBackwards] *)
Definition moveBackwards : M unit :=
  forEach_layer (fun items =>
    w <- world ;;
    forEach (_sortItemsByZIndex w items) (fun item =>
      s <- this ;;
      w <- world ;;
      match previousSibling w item with
      | Some sibling =>
          if negb (mem sibling (_items s))
          then update_world (insertBelow item sibling)
          else ret tt
      | None => ret tt
      end)).

(** [bringToFront] *)
Definition bringToFront : M unit :=
  forEach_layer (fun items =>
    w <- world ;;
    forEach (_sortItemsByZIndex w items) (fun item =>
      update_world (Scene.bringToFront item))).

(** [sendToBack] *)
Definition sendToBack : M unit :=
  forEach_layer (fun items =>
    w <- world ;;
    forEach (rev (_sortItemsByZIndex w items)) (fun item =>
      update_world (Scene.sendToBack item))).

(** *** The origin, and the methods whose bodies are commented out *)

(** [get origin] *)
Definition origin (s : Selection) : Point :=
  transform
    (new_Point (Transform.originX (_transformation s))
               (Transform.originY (_transformation s)))
    (_matrix s).

(** [set origin] *)
Definition set_origin (origin' : Point) : M unit :=
  s <- this ;;
  let d := subtract origin' (origin s) in
  updateTransformation
    (mkPartial
       (Some (Num (add (ToNumber (Transform.x (transformation s))) (px d))))
       (Some (Num (add (ToNumber (Transform.y (transformation s))) (py d))))
       None None None None None).


End Selection.

(** ** The position the specification describes *)

Module Spec.

Import Geometry.
Local Open Scope R_scope.

(** A point of the plane. *)
Record RPoint := mkRPoint { rpx : R; rpy : R }.

(** The real number that a finite double stands for (0 for the others). *)
Definition real (n : JS.number) : R :=
  match Prim2SF n with
  | S754_finite s m e => IZR (if s then Z.neg m else Z.pos m) * powerRZ 2 e
  | _ => 0
  end.

Definition real_point (p : Point) : RPoint := mkRPoint (real (px p)) (real (py p)).

Definition radians (degrees : R) : R := degrees * PI / 180.

Definition scale_about (o : RPoint) (sx sy : R) (p : RPoint) : RPoint :=
  mkRPoint (rpx o + sx * (rpx p - rpx o)) (rpy o + sy * (rpy p - rpy o)).

Definition rotate_about (o : RPoint) (degrees : R) (p : RPoint) : RPoint :=
  let c := cos (radians degrees) in
  let s := sin (radians degrees) in
  mkRPoint (rpx o + c * (rpx p - rpx o) - s * (rpy p - rpy o))
           (rpy o + s * (rpx p - rpx o) + c * (rpy p - rpy o)).

Definition translate (dx dy : R) (p : RPoint) : RPoint :=
  mkRPoint (rpx p + dx) (rpy p + dy).

(** The effective transform of the specification: to map an untransformed
    point to its displayed position, first scale about the origin, then
    rotate about the origin, then translate. *)
Definition displayed (x y scaleX scaleY rotation originX originY : R) (p : RPoint) : RPoint :=
  let o := mkRPoint originX originY in
  translate x y (rotate_about o rotation (scale_about o scaleX scaleY p)).

(** The position of the specification: the top-left corner of the
    untransformed bounds, mapped through the effective transform. *)
Definition position (bounds : Rectangle)
    (x y scaleX scaleY rotation originX originY : R) : RPoint :=
  displayed x y scaleX scaleY rotation originX originY (real_point (topLeft bounds)).

End Spec.

(** ** A small scene *)

Module Examples.

Import Geometry JS Scene Selection.
Import Transform(mkTransformation).

(** One layer, 0, with the children 1, 2, 3 from back to front. Item 1 has
    the bounds [0, 0, 10, 10], every other item [20, 20, 10, 10]. *)
Definition scene : World :=
  mkWorld 0
          (fun i => if Nat.leb 1 i && Nat.leb i 3 then Some 0%nat else None)
          (fun l => if Nat.eqb l 0 then [1; 2; 3]%nat else [])
          (fun i => if Nat.eqb i 1 then mkRect 0 0 10 10 else mkRect 20 20 10 10)
          (fun _ _ => attr_undefined)
          [] 0.

(** One layer, 0, with the children 4, 1, 2, 3, 5 from back to front. *)
Definition scene5 : World :=
  mkWorld 0
          (fun i => if Nat.leb 1 i && Nat.leb i 5 then Some 0%nat else None)
          (fun l => if Nat.eqb l 0 then [4; 1; 2; 3; 5]%nat else [])
          (fun _ => mkRect 0 0 10 10)
          (fun _ _ => attr_undefined)
          [] 0.

(** A selection of the given items with the default transformation, about
    the origin [(5, 5)], holding GUI 0. *)
Definition selection_of (items : list Item) (bounds : Rectangle) : Selection :=
  mkSelection false 0 items
    (mkTransformation (Num 0) (Num 0) (Num 1) (Num 1) (Num 0) (Num 5) (Num 5))
    bounds (Some 0%nat) None.

(** [{items: [1], x: 10, y: 5}] *)
Definition args_moved : Args :=
  mkArgs None (Some [1%nat]) (Some (Num 10)) (Some (Num 5))
         None None None None None.

(** [{layer: 1, items: [1, 2]}] *)
Definition args_items12 : Args :=
  mkArgs (Some 1%nat) (Some [1; 2]%nat) None None None None None None None.

(** [{items: [1]}] *)
Definition args_item1 : Args :=
  mkArgs None (Some [1%nat]) None None None None None None None.



End Examples.

(** ** Auxiliary definitions used in the proofs *)

Module Aux.

Import Geometry JS Scene.

(** The place of a double in the order that [Math.min] and [Math.max]
    follow: the negative infinity, the negative numbers, [-0], [+0], the
    positive numbers, the positive infinity (and NaN, which they do not
    compare, last). Numbers of one sign are in the order of their
    exponents and then of their mantissas. *)
Definition rank (x : spec_float) : Z * Z * Z * Z :=
  match x with
  | S754_zero s => (0, 0, 0, if s then 0 else 1)%Z
  | S754_infinity s => (if s then -2 else 2, 0, 0, 0)%Z
  | S754_nan => (3, 0, 0, 0)%Z
  | S754_finite s m e => if s then (-1, - e, Z.neg m, 0)%Z else (1, e, Z.pos m, 0)%Z
  end.

Definition key (a : number) : Z * Z * Z * Z := rank (Prim2SF a).

(** The order of the first three components, which is the order of [<];
    [-0] and [+0] are the same there. *)
Definition lt3 (p q : Z * Z * Z * Z) : Prop :=
  let '(c1, e1, m1, _) := p in
  let '(c2, e2, m2, _) := q in
  (c1 < c2 \/ (c1 = c2 /\ (e1 < e2 \/ (e1 = e2 /\ m1 < m2))))%Z.

Definition eq3 (p q : Z * Z * Z * Z) : Prop :=
  let '(c1, e1, m1, _) := p in
  let '(c2, e2, m2, _) := q in
  (c1 = c2 /\ e1 = e2 /\ m1 = m2)%Z.

Definition le4 (p q : Z * Z * Z * Z) : Prop :=
  lt3 p q \/ (eq3 p q /\ (snd p <= snd q)%Z).

(** The least of the numbers, taken from the right. *)
Fixpoint least_of (l : list number) : option number :=
  match l with
  | [] => None
  | a :: t =>
      match least_of t with
      | Some m => Some (Math_min a m)
      | None => Some a
      end
  end.

(** The accumulator step of a minimum taken from the left. *)
Definition least_step (m : option number) (a : number) : option number :=
  match m with
  | Some m => Some (Math_min m a)
  | None => Some a
  end.

(** What [moveForwards] does when it visits one item. *)
Definition forward_step (selected : list Item) (item : Item) (w : World) : World :=
  match nextSibling w item with
  | Some sibling =>
      if negb (mem sibling selected) then insertAbove item sibling w else w
  | None => w
  end.

(** All the items of the lists of [layerLists]. *)
Definition grouped (layerLists : list (nat * list Item)) : list Item :=
  List.concat (map snd layerLists).

(** What the visits of [moveForwards] keep true of a world [w], started
    in [w0], when the children of layer [L] end with [a :: suf] behind [n]
    other items: the items stay in their layers, the layers keep their
    children, and layer [L] still ends with [a :: suf] behind [n] items. *)
Definition blocked_inv (w0 : World) (L : nat) (a : Item) (suf : list Item) (n : nat)
    (w : World) : Prop :=
  (forall i, item_layer w i = item_layer w0 i)
  /\ (forall k i, In i (layer_children w k) <-> In i (layer_children w0 k))
  /\ NoDup (layer_children w L)
  /\ exists p, layer_children w L = p ++ a :: suf /\ List.length p = n.

End Aux.

(** ** Notions used to state further properties *)

Module Notions.

Import Geometry JS Scene Selection.

(** A field that holds a finite number other than [-0]: the numbers that
    a JSON copy hands back as they are. *)
Definition finite (v : value) : Prop :=
  exists n, v = Num n /\ is_finite n = true /\ is_negzero n = false.

(** A transformation with such a number in every field. *)
Definition all_finite (t : Transform.Transformation) : Prop :=
  finite (Transform.x t) /\ finite (Transform.y t)
  /\ finite (Transform.scaleX t) /\ finite (Transform.scaleY t)
  /\ finite (Transform.rotation t)
  /\ finite (Transform.originX t) /\ finite (Transform.originY t).

(** What a JSON copy makes of a field: a finite number other than a zero
    is kept, a zero of either sign becomes [0], and NaN, the infinities
    and [null] become [null]. *)
Inductive copied : value -> value -> Prop :=
| copied_number (n : number) :
    is_finite n = true -> is_zero n = false -> copied (Num n) (Num n)
| copied_zero (n : number) :
    is_zero n = true -> copied (Num n) (Num 0%float)
| copied_not_finite (n : number) :
    is_finite n = false -> copied (Num n) Null
| copied_null : copied Null Null.

(** The seven fields of a transformation. *)
Definition fields (t : Transform.Transformation) : list value :=
  [Transform.x t; Transform.y t; Transform.scaleX t; Transform.scaleY t;
   Transform.rotation t; Transform.originX t; Transform.originY t].

(** The children of a layer, back to front, after every selected item
    that has an item that is not selected somewhere in front of it has
    stepped over the next such item. *)
Fixpoint moved_forwards (selected : list Item) (l : list Item) : list Item :=
  match l with
  | [] => []
  | x :: t =>
      if mem x selected
      then match moved_forwards selected t with
           | y :: r => if mem y selected then x :: y :: r else y :: x :: r
           | [] => [x]
           end
      else x :: moved_forwards selected t
  end.

(** What [moveBackwards] does when it visits one item. *)
Definition backward_step (selected : list Item) (item : Item) (w : World) : World :=
  match previousSibling w item with
  | Some sibling =>
      if negb (mem sibling selected) then insertBelow item sibling w else w
  | None => w
  end.

(** The item is in the layer with this id. *)
Definition in_layer (w : World) (layerID : nat) (i : Item) : bool :=
  match item_layer w i with
  | Some k => Nat.eqb k layerID
  | None => false
  end.

(** The children of a layer, back to front, after every selected item
    that has an item that is not selected somewhere behind it has stepped
    back over the next such item: [moved_forwards] seen from the front. *)
Definition moved_backwards (selected : list Item) (l : list Item) : list Item :=
  rev (moved_forwards selected (rev l)).

(** Every item of [l] is selected. *)
Definition all_selected (selected : list Item) (l : list Item) : bool :=
  forallb (fun i => mem i selected) l.







Definition keeps_world (f : World -> World) : Prop :=
  forall w, next_gui (f w) = next_gui w /\ activeLayer (f w) = activeLayer w
            /\ item_layer (f w) = item_layer w /\ item_bounds (f w) = item_bounds w.

End Notions.

(** * Properties *)

Unset Implicit Arguments.

Import Geometry JS Scene Aux.

(** ** Numbers *)

Section Order.

Local Open Scope Z_scope.

Lemma rank_inj x y : rank x = rank y -> x = y.
Proof.
  destruct x as [[]|[]| |[] m e], y as [[]|[]| |[] m' e']; cbn; intros H;
    try discriminate; try reflexivity; injection H as H1 H2; f_equal; lia.
Qed.

Lemma key_inj a b : key a = key b -> a = b.
Proof.
  intros H. apply rank_inj in H.
  rewrite <- (SF2Prim_Prim2SF a), <- (SF2Prim_Prim2SF b). now rewrite H.
Qed.

Lemma compare_cont_eq m m' : PosDef.Pos.compare_cont Eq m m' = Pos.compare m m'.
Proof. reflexivity. Qed.

Lemma SFltb_rank x y :
  x <> S754_nan -> y <> S754_nan ->
  (SFltb x y = true <-> lt3 (rank x) (rank y)).
Proof.
  intros Hx Hy. unfold SFltb.
  destruct x as [[]|[]| |[] m e], y as [[]|[]| |[] m' e']; cbn;
    try congruence; try (split; [discriminate|lia]); try (split; [lia|reflexivity]);
    rewrite ?compare_cont_eq;
    destruct (Z.compare_spec e e'); try destruct (Pos.compare_spec m m'); cbn;
    split; try discriminate; try reflexivity; try lia.
Qed.

Lemma SFeqb_rank x y :
  x <> S754_nan -> y <> S754_nan ->
  (SFeqb x y = true <-> eq3 (rank x) (rank y)).
Proof.
  intros Hx Hy. unfold SFeqb.
  destruct x as [[]|[]| |[] m e], y as [[]|[]| |[] m' e']; cbn;
    try congruence; try (split; [discriminate|lia]); try (split; [lia|reflexivity]);
    rewrite ?compare_cont_eq;
    destruct (Z.compare_spec e e'); try destruct (Pos.compare_spec m m'); cbn;
    split; try discriminate; try reflexivity; try lia.
Qed.

Lemma SFleb_rank x y :
  x <> S754_nan -> y <> S754_nan ->
  (SFleb x y = true <-> lt3 (rank x) (rank y) \/ eq3 (rank x) (rank y)).
Proof.
  intros Hx Hy. unfold SFleb.
  destruct x as [[]|[]| |[] m e], y as [[]|[]| |[] m' e']; cbn;
    try congruence; try (split; [discriminate|lia]); try (split; [lia|reflexivity]);
    rewrite ?compare_cont_eq;
    destruct (Z.compare_spec e e'); try destruct (Pos.compare_spec m m'); cbn;
    split; try discriminate; try reflexivity; try lia.
Qed.

Lemma is_nan_false a : is_nan a = false -> Prim2SF a <> S754_nan.
Proof.
  unfold is_nan. rewrite FloatAxioms.eqb_spec. intros H E. rewrite E in H. discriminate.
Qed.

Lemma le4_total p q : le4 p q \/ le4 q p.
Proof.
  destruct p as [[[? ?] ?] ?], q as [[[? ?] ?] ?]. unfold le4, lt3, eq3; cbn. lia.
Qed.

Lemma le4_trans p q r : le4 p q -> le4 q r -> le4 p r.
Proof.
  destruct p as [[[? ?] ?] ?], q as [[[? ?] ?] ?], r as [[[? ?] ?] ?].
  unfold le4, lt3, eq3; cbn. lia.
Qed.

Lemma le4_antisym p q : le4 p q -> le4 q p -> p = q.
Proof.
  destruct p as [[[c e] m] z], q as [[[c' e'] m'] z'].
  unfold le4, lt3, eq3; cbn. intros H1 H2.
  assert (c = c' /\ e = e' /\ m = m' /\ z = z') as (-> & -> & -> & ->) by lia.
  reflexivity.
Qed.


Lemma rank_last x : 0 <= snd (rank x).
Proof. destruct x as [[]|[]| |[] m e]; cbn; lia. Qed.

Lemma is_negzero_key a : is_negzero a = true <-> key a = (0, 0, 0, 0).
Proof.
  unfold is_negzero, key.
  destruct (Prim2SF a) as [[]|[]| |[] m e]; cbn; split; congruence.
Qed.

(** [Math.min] returns the number that is first in the order, and
    [Math.max] the one that is last. *)
Lemma Math_min_least a b :
  is_nan a = false -> is_nan b = false ->
  (le4 (key a) (key b) -> Math_min a b = a) /\ (le4 (key b) (key a) -> Math_min a b = b).
Proof.
  intros Ha Hb. unfold Math_min. rewrite Ha, Hb. cbn [orb].
  pose proof (is_nan_false a Ha) as Na. pose proof (is_nan_false b Hb) as Nb.
  pose proof (SFltb_rank _ _ Na Nb) as L. pose proof (SFeqb_rank _ _ Na Nb) as E.
  pose proof (is_negzero_key a) as Z.
  rewrite <- FloatAxioms.ltb_spec in L. rewrite <- FloatAxioms.eqb_spec in E.
  fold (key a) (key b) in L, E.
  destruct (a <? b)%float; cbn [orb].
  - split; [reflexivity|]. intros H. apply key_inj.
    apply le4_antisym; [|exact H]. left. now apply L.
  - destruct (a =? b)%float; cbn [andb].
    + destruct (is_negzero a).
      * split; [reflexivity|]. intros H. apply key_inj.
        apply le4_antisym; [|exact H]. right. split; [now apply E|].
        rewrite (proj1 Z eq_refl). apply rank_last.
      * split; [|reflexivity]. intros H. apply key_inj.
        apply le4_antisym; [|exact H]. right. split.
        -- pose proof (proj1 E eq_refl) as E3.
           destruct (key a) as [[[? ?] ?] ?], (key b) as [[[? ?] ?] ?]. unfold eq3 in *. lia.
        -- pose proof (proj1 E eq_refl) as E3.
           assert (Hz : key a <> (0, 0, 0, 0)).
           { intros K. apply Z in K. discriminate. }
           revert E3 H Hz. unfold key.
           destruct (Prim2SF a) as [[]|[]| |[] m e], (Prim2SF b) as [[]|[]| |[] m' e'];
             unfold le4, lt3, eq3; cbn; intros; try lia; congruence.
    + split; [|reflexivity]. intros H. exfalso.
      destruct H as [H|[H _]].
      * apply L in H. discriminate.
      * apply E in H. discriminate.
Qed.


End Order.

Lemma Math_min_nan a b : is_nan a || is_nan b = true -> Math_min a b = nan.
Proof. intros H. unfold Math_min. now rewrite H. Qed.


Lemma Math_min_comm a b : Math_min a b = Math_min b a.
Proof.
  destruct (is_nan a) eqn:Ha; [|destruct (is_nan b) eqn:Hb].
  - rewrite !Math_min_nan; [reflexivity| |]; rewrite Ha; [apply orb_true_r | reflexivity].
  - rewrite !Math_min_nan; [reflexivity| |]; rewrite Hb; [reflexivity | apply orb_true_r].
  - destruct (le4_total (key a) (key b)) as [H|H].
    + now rewrite (proj1 (Math_min_least a b Ha Hb) H), (proj2 (Math_min_least b a Hb Ha) H).
    + now rewrite (proj2 (Math_min_least a b Ha Hb) H), (proj1 (Math_min_least b a Hb Ha) H).
Qed.


Lemma Math_min_assoc a b c : Math_min (Math_min a b) c = Math_min a (Math_min b c).
Proof.
  destruct (is_nan a) eqn:Ha; [|destruct (is_nan b) eqn:Hb; [|destruct (is_nan c) eqn:Hc]].
  - rewrite (Math_min_nan a b), (Math_min_nan a (Math_min b c)) by now rewrite Ha.
    reflexivity.
  - rewrite (Math_min_nan a b), (Math_min_nan b c) by (rewrite Hb; auto using orb_true_r).
    rewrite (Math_min_nan a nan) by apply orb_true_r. reflexivity.
  - rewrite (Math_min_nan b c), !Math_min_nan; auto using orb_true_r.
    + rewrite Hc. apply orb_true_r.
    + rewrite Hc. apply orb_true_r.
  - destruct (le4_total (key a) (key b)) as [Hab|Hab];
      destruct (le4_total (key b) (key c)) as [Hbc|Hbc].
    + rewrite (proj1 (Math_min_least a b Ha Hb) Hab), (proj1 (Math_min_least b c Hb Hc) Hbc).
      rewrite (proj1 (Math_min_least a b Ha Hb) Hab).
      apply (proj1 (Math_min_least a c Ha Hc)). eapply le4_trans; eassumption.
    + rewrite (proj1 (Math_min_least a b Ha Hb) Hab), (proj2 (Math_min_least b c Hb Hc) Hbc).
      reflexivity.
    + rewrite (proj2 (Math_min_least a b Ha Hb) Hab), (proj1 (Math_min_least b c Hb Hc) Hbc).
      rewrite (proj2 (Math_min_least a b Ha Hb) Hab). reflexivity.
    + rewrite (proj2 (Math_min_least a b Ha Hb) Hab), (proj2 (Math_min_least b c Hb Hc) Hbc).
      rewrite (proj2 (Math_min_least a c Ha Hc)); [reflexivity|].
      eapply le4_trans; eassumption.
Qed.

Lemma is_nan_eq a : is_nan a = true -> a = nan.
Proof.
  unfold is_nan. rewrite FloatAxioms.eqb_spec. unfold SFeqb.
  destruct (Prim2SF a) as [[]|[]| |[] m e] eqn:E; cbn;
    rewrite ?compare_cont_eq, ?Z.compare_refl, ?Pos.compare_refl; cbn;
    try discriminate.
  intros _. now rewrite <- (SF2Prim_Prim2SF a), E.
Qed.

Lemma Math_min_cases a b : Math_min a b = a \/ Math_min a b = b.
Proof.
  unfold Math_min.
  destruct (is_nan a) eqn:Ha; [left; symmetry; now apply is_nan_eq|].
  destruct (is_nan b) eqn:Hb; [right; symmetry; now apply is_nan_eq|].
  cbn [orb]. destruct (_ || _); auto.
Qed.

Lemma Math_min_idem a : Math_min a a = a.
Proof. now destruct (Math_min_cases a a). Qed.

Lemma le4_leb a b :
  is_nan a = false -> is_nan b = false ->
  le4 (key a) (key b) -> (a <=? b)%float = true.
Proof.
  intros Ha Hb H. rewrite FloatAxioms.leb_spec.
  apply (SFleb_rank _ _ (is_nan_false a Ha) (is_nan_false b Hb)).
  destruct H as [H|[H _]]; auto.
Qed.

(** Where [Math.min] returns its first argument and that is a number, it
    is at most the second by [<=]. *)
Lemma Math_min_leb a b :
  Math_min a b = a -> is_nan a = false -> (a <=? b)%float = true.
Proof.
  intros H Ha.
  destruct (is_nan b) eqn:Hb.
  - rewrite Math_min_nan in H by (rewrite Hb; apply orb_true_r).
    rewrite <- H in Ha. discriminate.
  - destruct (le4_total (key a) (key b)) as [L|L].
    + now apply le4_leb.
    + rewrite (proj2 (Math_min_least a b Ha Hb) L) in H. subst b.
      now apply le4_leb.
Qed.

(** Two doubles that differ are told apart by the data they are made of. *)
Ltac differ H :=
  apply (f_equal Prim2SF) in H; vm_compute in H; discriminate H.

(** ** Rectangles *)


Lemma least_step_some l m :
  fold_left least_step l (Some m) =
  match least_of l with
  | Some r => Some (Math_min m r)
  | None => Some m
  end.
Proof.
  revert m. induction l as [|a t IH]; intros m; cbn; [reflexivity|].
  rewrite IH. destruct (least_of t) as [r|]; [|reflexivity].
  now rewrite Math_min_assoc.
Qed.

Lemma least_step_none l : fold_left least_step l None = least_of l.
Proof. destruct l as [|a t]; cbn; [reflexivity|]. apply least_step_some. Qed.


Lemma least_of_below l m a : least_of l = Some m -> In a l -> Math_min m a = m.
Proof.
  revert m. induction l as [|b t IH]; intros m E Ha; [contradiction|].
  cbn in E. destruct (least_of t) as [m'|] eqn:Et; injection E as <-.
  - destruct Ha as [->|Ha].
    + now rewrite (Math_min_comm a m'), Math_min_assoc, Math_min_idem.
    + now rewrite Math_min_assoc, (IH m' eq_refl Ha).
  - destruct t as [|c t]; [|cbn in Et; destruct (least_of t); discriminate].
    destruct Ha as [->|[]]. apply Math_min_idem.
Qed.

Lemma least_of_attained l m : least_of l = Some m -> In m l.
Proof.
  revert m. induction l as [|b t IH]; intros m E; [discriminate|].
  cbn in E. destruct (least_of t) as [m'|] eqn:Et; injection E as <-.
  - destruct (Math_min_cases b m') as [-> | ->]; [now left|].
    right. now apply IH.
  - now left.
Qed.

Lemma least_of_nonempty l : l <> [] -> exists m, least_of l = Some m.
Proof.
  destruct l as [|a t]; [congruence|]. intros _. cbn.
  destruct (least_of t); eauto.
Qed.

Lemma Math_min_antisym a b : Math_min a b = a -> Math_min b a = b -> a = b.
Proof. intros H1 H2. now rewrite <- H1, Math_min_comm. Qed.

Section Corner.

Variable w : World.

(** The accumulator step of [_getBoundsOfItems]. *)
Let step (bounds : option Rectangle) (item : Item) : option Rectangle :=
  match bounds with
  | Some b => Some (unite b (item_bounds w item))
  | None => Some (item_bounds w item)
  end.

Lemma step_edge (edge : Rectangle -> number) l b :
  (forall a c, edge (unite a c) = Math_min (edge a) (edge c)) ->
  option_map edge (fold_left step l b) =
  fold_left least_step (map (fun i => edge (item_bounds w i)) l) (option_map edge b).
Proof.
  intros He. revert b. induction l as [|i t IH]; intros b; cbn; [reflexivity|].
  rewrite IH. f_equal. destruct b as [b|]; cbn; [|reflexivity]. now rewrite He.
Qed.



(** An edge that [unite] takes by [Math.min] is, in the bounds of items
    that are not none, at or before that edge of every item and is that
    edge of one of them. *)
Lemma getBoundsOfItems_edge_least (edge : Rectangle -> number) l :
  (forall a c, edge (unite a c) = Math_min (edge a) (edge c)) ->
  l <> [] ->
  let e := edge (Selection._getBoundsOfItems w l) in
  (forall i, In i l -> Math_min e (edge (item_bounds w i)) = e)
  /\ (exists i, In i l /\ e = edge (item_bounds w i)).
Proof.
  intros He Hne e. subst e.
  assert (E : exists m, least_of (map (fun i => edge (item_bounds w i)) l) = Some m
                        /\ edge (Selection._getBoundsOfItems w l) = m).
  { destruct (least_of_nonempty (map (fun i => edge (item_bounds w i)) l)) as (m & Em).
    - destruct l; [congruence | discriminate].
    - exists m. split; [exact Em|].
      destruct l as [|i t]; [congruence|].
      unfold Selection._getBoundsOfItems. fold step.
      pose proof (step_edge edge (i :: t) None He) as E.
      change (option_map edge None) with (@None number) in E.
      rewrite least_step_none, Em in E.
      destruct (fold_left step (i :: t) None) as [b|]; cbn [option_map] in E;
        [now injection E | discriminate]. }
  destruct E as (m & Em & ->). split.
  - intros i Hi. apply (least_of_below _ _ _ Em).
    now apply (in_map (fun i => edge (item_bounds w i))).
  - apply least_of_attained, in_map_iff in Em. destruct Em as (i & Ei & Hi).
    now exists i.
Qed.

End Corner.




(** ** Running methods *)

Import Selection.

Ltac run :=
  unfold set_items, set_transformation, updateTransformation, set_position,
    set_width, set_height, getPathAttribute, _destroy, _create, _rebuild,
    bind, ret, throw, this, world, update_this, update_world; cbn.

Lemma new_Selection_returns args w :
  fst (new_Selection args w) = Return tt.
Proof.
  unfold new_Selection. run.
  destruct (match arg_items _ with Some l => l | None => [] end); reflexivity.
Qed.

Lemma new_Selection_gui args w :
  _gui (fst (snd (new_Selection args w))) = Some (next_gui w).
Proof.
  unfold new_Selection. run.
  destruct (match arg_items _ with Some l => l | None => [] end); reflexivity.
Qed.

Lemma new_Selection_matrix args w :
  _matrix (fst (snd (new_Selection args w))) = None.
Proof.
  unfold new_Selection. run.
  destruct (match arg_items _ with Some l => l | None => [] end); reflexivity.
Qed.

Lemma new_Selection_items args w :
  _items (fst (snd (new_Selection args w))) =
  match arg_items (match args with Some a => a | None => no_args end) with
  | Some l => l
  | None => []
  end.
Proof.
  unfold new_Selection. run.
  destruct (match arg_items _ with Some l => l | None => [] end); reflexivity.
Qed.

Lemma new_Selection_bounds args w :
  _untransformedBounds (fst (snd (new_Selection args w))) =
  _getBoundsOfItems w (_items (fst (snd (new_Selection args w)))).
Proof.
  rewrite new_Selection_items.
  unfold new_Selection. run.
  destruct (match arg_items _ with Some l => l | None => [] end); reflexivity.
Qed.

Lemma set_items_run s w g items' :
  _gui s = Some g ->
  set_items items' (s, w) =
  (Return tt, (with_items items' s, emit (SelectionGUI_destroy g) w)).
Proof. intros H. run. rewrite H. reflexivity. Qed.

Lemma set_transformation_run s w g t :
  _gui s = Some g ->
  set_transformation t (s, w) =
  (Throw (TypeError "this._create is not a function"),
   (with_transformation t s, emit (SelectionGUI_destroy g) w)).
Proof. intros H. run. rewrite H. reflexivity. Qed.

Lemma updateTransformation_run s w g p :
  _gui s = Some g ->
  updateTransformation p (s, w) =
  (Throw (TypeError "this._create is not a function"),
   (with_transformation (Transform.assign (transformation s) p) s,
    emit (SelectionGUI_destroy g) w)).
Proof.
  intros H. unfold updateTransformation, bind, this. cbn.
  now apply set_transformation_run.
Qed.

(** ** The items setter *)

(** C5. On a selection that holds a GUI, assigning a new list through the
    items setter returns normally, leaves the transformation as it was,
    calls [destroy()] on that GUI exactly once and makes no other call: no
    GUI is built, and the selection keeps the destroyed one. *)
Theorem set_items_destroys_gui_once
    (s : Selection) (w : World) (g : nat) (items' : list Item) :
  _gui s = Some g ->
  let r := set_items items' (s, w) in
  let s' := fst (snd r) in
  let w' := snd (snd r) in
  fst r = Return tt
  /\ _items s' = items'
  /\ _transformation s' = _transformation s
  /\ transformation s' = transformation s
  /\ trace w' = trace w ++ [SelectionGUI_destroy g]
  /\ _gui s' = Some g
  /\ next_gui w' = next_gui w.
Proof.
  intros H r s' w'. subst r s' w'.
  rewrite (set_items_run s w g items' H). cbn.
  repeat split; assumption.
Qed.

Lemma set_items_destroys_gui_once_witness :
  let st := snd (new_Selection (Some Examples.args_item1) Examples.scene) in
  let r := set_items [2; 3] st in
  _gui (fst st) = Some 0
  /\ fst r = Return tt
  /\ _transformation (fst (snd r)) = _transformation (fst st)
  /\ trace (snd (snd r)) = trace (snd st) ++ [SelectionGUI_destroy 0].
Proof.
  intros st r.
  assert (H : _gui (fst st) = Some 0) by reflexivity.
  split; [exact H|].
  pose proof (set_items_destroys_gui_once (fst st) (snd st) 0 [2; 3] H) as T.
  cbv zeta in T. rewrite <- surjective_pairing in T.
  destruct T as (T1 & _ & T2 & _ & T3 & _).
  repeat split; assumption.
Defined.

(** C4, as the code has it. [_untransformedBounds] is computed once, by the
    constructor, as the union of the bounds of the items given to it: the
    rectangle at the origin with zero size when there are none, and
    otherwise the bounds of the first item united with those of each
    further item in turn. The items setter replaces the sequence and
    leaves [_untransformedBounds] as it was. *)
Theorem untransformedBounds_computed_at_construction :
  (forall (args : option Args) (w : World),
      let s := fst (snd (new_Selection args w)) in
      _untransformedBounds s =
      match _items s with
      | [] => mkRect 0 0 0 0
      | i :: rest =>
          fold_left (fun b j => unite b (item_bounds w j)) rest (item_bounds w i)
      end)
  /\ (forall (args : option Args) (w : World) (items' : list Item),
         let st := snd (new_Selection args w) in
         let s' := fst (snd (set_items items' st)) in
         _items s' = items'
         /\ _untransformedBounds s' = _untransformedBounds (fst st))
  /\ (forall (items' : list Item) (st : Selection * World),
         _untransformedBounds (fst (snd (set_items items' st))) =
         _untransformedBounds (fst st)).
Proof.
  split; [|split].
  - intros args w s. subst s. rewrite new_Selection_bounds.
    destruct (_items _) as [|i rest]; [reflexivity|].
    unfold _getBoundsOfItems. cbn [fold_left].
    generalize (item_bounds w i). induction rest as [|j t IH]; intros b.
    + reflexivity.
    + cbn [fold_left]. apply IH.
  - intros args w items' st s'. subst s'.
    pose proof (new_Selection_gui args w) as Hg. fold st in Hg.
    rewrite (surjective_pairing st), (set_items_run _ _ _ items' Hg).
    split; reflexivity.
  - intros items' [s w]. run. destruct (_gui s); reflexivity.
Qed.

Lemma untransformedBounds_computed_at_construction_witness :
  let st := snd (new_Selection (Some Examples.args_items12) Examples.scene) in
  let s' := fst (snd (set_items [3] st)) in
  _untransformedBounds (fst st) = mkRect 0 0 30 30
  /\ _items s' = [3]
  /\ _untransformedBounds s' = mkRect 0 0 30 30.
Proof.
  intros st s'.
  pose proof (proj1 untransformedBounds_computed_at_construction
                (Some Examples.args_items12) Examples.scene) as T1.
  pose proof (proj1 (proj2 untransformedBounds_computed_at_construction)
                (Some Examples.args_items12) Examples.scene [3]) as T2.
  cbv zeta in T1, T2. fold st in T1, T2. fold s' in T2.
  destruct T2 as [T2 T3].
  assert (E : _untransformedBounds (fst st) = mkRect 0 0 30 30).
  { rewrite T1. vm_compute. reflexivity. }
  split; [exact E|]. split; [exact T2|]. now rewrite T3.
Defined.

(** C4, as stated, fails: after the items setter has put item 1 (bounds
    [0, 0, 10, 10]) into an empty selection, [_untransformedBounds] is
    still the empty rectangle, not the union of the bounds of the current
    items. *)
Lemma set_items_keeps_stale_bounds :
  let st := snd (set_items [1] (snd (new_Selection None Examples.scene))) in
  _items (fst st) = [1]
  /\ _untransformedBounds (fst st) = mkRect 0 0 0 0
  /\ _getBoundsOfItems (snd st) (_items (fst st)) = mkRect 0 0 10 10
  /\ _untransformedBounds (fst st) <> _getBoundsOfItems (snd st) (_items (fst st)).
Proof.
  cbv zeta. split; [reflexivity|]. split; [reflexivity|]. split; [reflexivity|].
  cbn. intros H. apply (f_equal Geometry.width) in H. cbn in H. differ H.
Qed.

(** ** Path attributes *)

(** C6, at the failing input. On a freshly built empty selection, reading a
    path attribute reports the diagnostic on the console and then throws a
    TypeError: the method goes on to read the attribute of
    [this.items[0]], which is undefined. *)
Theorem getPathAttribute_empty_throws (w : World) (attributeName : string) :
  let st := snd (new_Selection None w) in
  _items (fst st) = []
  /\ getPathAttribute attributeName st =
     (Throw (TypeError "Cannot read properties of undefined"),
      (fst st,
       emit (console_error "getPathAttribute(): Nothing in the selection!") (snd st)))
  /\ fst (fillColor st) = Throw (TypeError "Cannot read properties of undefined")
  /\ fst (strokeColor st) = Throw (TypeError "Cannot read properties of undefined")
  /\ fst (strokeWidth st) = Throw (TypeError "Cannot read properties of undefined").
Proof.
  cbv zeta. repeat split.
Qed.

(** ** The constructor's defaults *)

Lemma or_default_falsy v d : truthy v = false -> or_default (Some v) d = d.
Proof. intros H. unfold or_default. now rewrite H. Qed.

Lemma truthy_zero : truthy (Num 0) = false.
Proof. reflexivity. Qed.

Lemma new_Selection_transformation args w :
  let a := match args with Some a => a | None => no_args end in
  let bounds := _untransformedBounds (fst (snd (new_Selection args w))) in
  _transformation (fst (snd (new_Selection args w))) =
  Transform.mkTransformation
    (or_default (arg_x a) (Num 0))
    (or_default (arg_y a) (Num 0))
    (or_default (arg_scaleX a) (Num 1))
    (or_default (arg_scaleY a) (Num 1))
    (or_default (arg_rotation a) (Num 0))
    (match arg_originX a with
     | Some v => v
     | None => Num (px (center bounds))
     end)
    (match arg_originY a with
     | Some v => v
     | None => Num (py (center bounds))
     end).
Proof.
  unfold new_Selection. run.
  destruct (match arg_items _ with Some l => l | None => [] end); reflexivity.
Qed.

(** C10. A config value that is falsy (such as an explicit 0) for [x],
    [y], [scaleX], [scaleY] or [rotation] builds the same selection as
    omitting the property, with the defaults 0, 0, 1, 1 and 0: in
    particular an explicit [scaleX] or [scaleY] of 0 yields a scale of 1.
    An explicit [originX] or [originY] of 0 is kept as 0, where an omitted
    one is the center of the bounds of the items. *)
Theorem constructor_falsy_defaults
    (l : option nat) (its : option (list Item))
    (ax ay asx asy arot aox aoy : option value) (w : World) (v : value) :
  truthy v = false ->
  let T a := _transformation (fst (snd (new_Selection (Some a) w))) in
  let B a := _untransformedBounds (fst (snd (new_Selection (Some a) w))) in
  (new_Selection (Some (mkArgs l its (Some v) ay asx asy arot aox aoy)) w =
   new_Selection (Some (mkArgs l its None ay asx asy arot aox aoy)) w
   /\ Transform.x (T (mkArgs l its (Some v) ay asx asy arot aox aoy)) = Num 0)
  /\ (new_Selection (Some (mkArgs l its ax (Some v) asx asy arot aox aoy)) w =
      new_Selection (Some (mkArgs l its ax None asx asy arot aox aoy)) w
      /\ Transform.y (T (mkArgs l its ax (Some v) asx asy arot aox aoy)) = Num 0)
  /\ (new_Selection (Some (mkArgs l its ax ay (Some v) asy arot aox aoy)) w =
      new_Selection (Some (mkArgs l its ax ay None asy arot aox aoy)) w
      /\ Transform.scaleX (T (mkArgs l its ax ay (Some v) asy arot aox aoy)) = Num 1)
  /\ (new_Selection (Some (mkArgs l its ax ay asx (Some v) arot aox aoy)) w =
      new_Selection (Some (mkArgs l its ax ay asx None arot aox aoy)) w
      /\ Transform.scaleY (T (mkArgs l its ax ay asx (Some v) arot aox aoy)) = Num 1)
  /\ (new_Selection (Some (mkArgs l its ax ay asx asy (Some v) aox aoy)) w =
      new_Selection (Some (mkArgs l its ax ay asx asy None aox aoy)) w
      /\ Transform.rotation (T (mkArgs l its ax ay asx asy (Some v) aox aoy)) = Num 0)
  /\ truthy (Num 0) = false
  /\ Transform.originX (T (mkArgs l its ax ay asx asy arot (Some (Num 0)) aoy)) =
     Num 0
  /\ Transform.originY (T (mkArgs l its ax ay asx asy arot aox (Some (Num 0)))) =
     Num 0
  /\ Transform.originX (T (mkArgs l its ax ay asx asy arot None aoy)) =
     Num (px (center (B (mkArgs l its ax ay asx asy arot None aoy))))
  /\ Transform.originY (T (mkArgs l its ax ay asx asy arot aox None)) =
     Num (py (center (B (mkArgs l its ax ay asx asy arot aox None)))).
Proof.
  intros Hv T B. subst T B. cbv beta.
  rewrite !new_Selection_transformation. cbn.
  unfold new_Selection. cbn. rewrite !Hv.
  repeat split.
Qed.

Lemma constructor_falsy_defaults_witness :
  new_Selection (Some (mkArgs None None None None (Some (Num 0)) None None None None))
                Examples.scene =
  new_Selection (Some no_args) Examples.scene
  /\ Transform.scaleX
       (_transformation
          (fst (snd (new_Selection
                       (Some (mkArgs None None None None (Some (Num 0)) None None None None))
                       Examples.scene)))) = Num 1.
Proof.
  pose proof (constructor_falsy_defaults None None None None None None None None None
                Examples.scene (Num 0) truthy_zero) as T.
  cbv zeta beta in T.
  exact (proj1 (proj2 (proj2 T))).
Defined.

(** ** Position *)

Lemma position_without_matrix s :
  _matrix s = None -> position s = topLeft (_untransformedBounds s).
Proof. intros H. unfold position. now rewrite H. Qed.

Lemma radians_0 : Spec.radians 0 = 0%R.
Proof. unfold Spec.radians. field. Qed.

Lemma real_0 : Spec.real 0 = 0%R.
Proof. reflexivity. Qed.

(** The real value of a double that is written out. *)
Ltac real_value :=
  unfold Spec.real;
  match goal with
  | |- context [Prim2SF ?f] =>
      let v := eval vm_compute in (Prim2SF f) in change (Prim2SF f) with v
  end;
  cbv beta iota; unfold powerRZ;
  match goal with
  | |- context [Pos.to_nat ?p] =>
      let n := eval vm_compute in (Pos.to_nat p) in change (Pos.to_nat p) with n
  end;
  match goal with
  | |- context [(2 ^ ?n)%R] =>
      replace (2 ^ n)%R with (IZR (2 ^ Z.of_nat n)) by (rewrite <- pow_IZR; reflexivity);
      let v := eval vm_compute in (2 ^ Z.of_nat n)%Z in change (2 ^ Z.of_nat n)%Z with v
  end;
  field.

(** C1, at the failing input. No method assigns [_matrix], so the position
    getter of a constructed selection returns the top-left corner of the
    untransformed bounds as it is, also after the transformation has been
    replaced. For the selection of item 1 (bounds [0, 0, 10, 10]) built
    with [x = 10] and [y = 5] (scale 1, rotation 0), the getter returns
    [(0, 0)], where the transform of the specification, taken at the real
    values of these fields, maps the corner to [(10, 5)] whatever the
    origin. *)
Theorem position_ignores_transformation :
  (forall (args : option Args) (w : World),
      let s := fst (snd (new_Selection args w)) in
      position s = topLeft (_untransformedBounds s))
  /\ (forall (args : option Args) (w : World) (t : Transform.Transformation),
         let st := snd (new_Selection args w) in
         let s' := fst (snd (set_transformation t st)) in
         _transformation s' = t
         /\ position s' = topLeft (_untransformedBounds (fst st)))
  /\ (let s := fst (snd (new_Selection (Some Examples.args_moved) Examples.scene)) in
      _untransformedBounds s = mkRect 0 0 10 10
      /\ Transform.x (_transformation s) = Num 10
      /\ Transform.y (_transformation s) = Num 5
      /\ Transform.scaleX (_transformation s) = Num 1
      /\ Transform.scaleY (_transformation s) = Num 1
      /\ Transform.rotation (_transformation s) = Num 0
      /\ position s = mkPoint 0 0
      /\ (Spec.real 10 = 10%R /\ Spec.real 5 = 5%R /\ Spec.real 1 = 1%R
          /\ Spec.real 0 = 0%R)
      /\ (forall ox oy : R,
             Spec.position (_untransformedBounds s) 10 5 1 1 0 ox oy =
             Spec.mkRPoint 10 5)
      /\ Spec.real_point (position s) <> Spec.mkRPoint 10 5).
Proof.
  split; [|split].
  - intros args w s. apply position_without_matrix, new_Selection_matrix.
  - intros args w t st s'. subst s'.
    pose proof (new_Selection_gui args w) as Hg.
    pose proof (new_Selection_matrix args w) as Hm.
    fold st in Hg, Hm. rewrite (surjective_pairing st).
    rewrite (set_transformation_run _ _ _ _ Hg). cbn.
    split; [reflexivity|]. unfold position. cbn. now rewrite Hm.
  - cbv zeta.
    assert (Eb : _untransformedBounds
                   (fst (snd (new_Selection (Some Examples.args_moved) Examples.scene))) =
                 mkRect 0 0 10 10) by reflexivity.
    assert (Ep : position
                   (fst (snd (new_Selection (Some Examples.args_moved) Examples.scene))) =
                 mkPoint 0 0) by reflexivity.
    rewrite Eb, Ep.
    repeat (split; [reflexivity|]).
    split; [repeat split; (exact real_0 || real_value)|].
    split.
    + intros ox oy.
      unfold Spec.position, Spec.displayed, Spec.rotate_about, Spec.scale_about,
        Spec.translate, Spec.real_point. cbn [topLeft rx ry px py Spec.rpx Spec.rpy].
      rewrite real_0, radians_0, cos_0, sin_0. f_equal; ring.
    + unfold Spec.real_point. cbn [px py]. rewrite real_0.
      intros H. injection H as H. lra.
Qed.

(** C2, at the failing input. On a constructed selection the position
    setter stores the shifted [x] and [y] and then throws the TypeError of
    the missing [_create]; whatever point was asked for, the getter still
    returns the top-left corner of the untransformed bounds. For the
    selection of item 1 (bounds [0, 0, 10, 10]) and the target [(5, 5)] the
    getter returns [(0, 0)] afterwards. *)
Theorem set_position_then_position :
  (forall (args : option Args) (w : World) (p : Point),
      let st := snd (new_Selection args w) in
      let r := set_position p st in
      fst r = Throw (TypeError "this._create is not a function")
      /\ position (fst (snd r)) = topLeft (_untransformedBounds (fst st)))
  /\ (let st := snd (new_Selection (Some Examples.args_item1) Examples.scene) in
      let r := set_position (mkPoint 5 5) st in
      Transform.x (_transformation (fst (snd r))) = Num (add 0 (sub 5 0))
      /\ Transform.y (_transformation (fst (snd r))) = Num (add 0 (sub 5 0))
      /\ position (fst (snd r)) = mkPoint 0 0
      /\ position (fst (snd r)) <> mkPoint 5 5).
Proof.
  split.
  - intros args w p st r. subst r.
    pose proof (new_Selection_gui args w) as Hg.
    pose proof (new_Selection_matrix args w) as Hm.
    fold st in Hg, Hm. rewrite (surjective_pairing st).
    unfold set_position, bind, this. cbn.
    rewrite !(set_transformation_run _ _ _ _ Hg). cbn.
    split; [reflexivity|].
    unfold position. cbn. now rewrite Hm.
  - cbv zeta. repeat (split; [reflexivity|]).
    intros H. apply (f_equal px) in H. vm_compute in H. differ H.
Qed.

(** ** Width *)

Lemma set_width_run s w g W :
  _gui s = Some g ->
  set_width W (s, w) =
  (Throw (TypeError "this._create is not a function"),
   (with_transformation
      (Transform.assign (transformation s)
         (Transform.mkPartial None None
            (Some (Num (div (ToNumber (Transform.scaleX (transformation s)))
                            (div (width s) W))))
            None None None None)) s,
    emit (SelectionGUI_destroy g) w)).
Proof.
  intros H. unfold set_width, bind, this. cbn [fst snd].
  now apply updateTransformation_run.
Qed.




(** ** Lists of children *)

Lemma mem_In i l : mem i l = true <-> In i l.
Proof.
  unfold mem. rewrite existsb_exists. split.
  - intros (j & Hj & E). apply Nat.eqb_eq in E. now subst.
  - intros H. exists i. split; [assumption | apply Nat.eqb_refl].
Qed.

Lemma mem_false i l : mem i l = false <-> ~ In i l.
Proof.
  rewrite <- mem_In. destruct (mem i l); split; congruence.
Qed.

Lemma In_without j i l : In j (without i l) <-> In j l /\ j <> i.
Proof.
  unfold without. rewrite filter_In, negb_true_iff, Nat.eqb_neq. reflexivity.
Qed.

Lemma without_notin i l : ~ In i l -> without i l = l.
Proof.
  induction l as [|j t IH]; cbn; intros H; [reflexivity|].
  destruct (Nat.eqb_spec j i) as [->|Hji]; cbn.
  - exfalso. apply H. now left.
  - f_equal. apply IH. intros Hin. apply H. now right.
Qed.

Lemma without_app i l1 l2 : without i (l1 ++ l2) = without i l1 ++ without i l2.
Proof. apply filter_app. Qed.

Lemma without_head i l : without i (i :: l) = without i l.
Proof. cbn. now rewrite Nat.eqb_refl. Qed.

Lemma without_middle i l1 l2 :
  ~ In i (l1 ++ l2) -> without i (l1 ++ i :: l2) = l1 ++ l2.
Proof.
  intros H. rewrite without_app, without_head.
  rewrite !without_notin; [reflexivity| |];
    intros Hin; apply H, in_or_app; auto.
Qed.

Lemma index_in_notin i l : ~ In i l -> index_in i l = List.length l.
Proof.
  induction l as [|j t IH]; cbn; intros H; [reflexivity|].
  destruct (Nat.eqb_spec i j) as [->|Hij].
  - exfalso. apply H. now left.
  - f_equal. apply IH. intros Hin. apply H. now right.
Qed.

Lemma index_in_middle i l1 l2 :
  ~ In i l1 -> index_in i (l1 ++ i :: l2) = List.length l1.
Proof.
  induction l1 as [|j t IH]; cbn; intros H.
  - now rewrite Nat.eqb_refl.
  - destruct (Nat.eqb_spec i j) as [->|Hij].
    + exfalso. apply H. now left.
    + f_equal. apply IH. intros Hin. apply H. now right.
Qed.

Lemma index_in_lt i l : In i l <-> index_in i l < List.length l.
Proof.
  induction l as [|j t IH]; cbn.
  - split; [tauto | lia].
  - destruct (Nat.eqb_spec i j) as [->|Hij].
    + split; [lia | auto].
    + rewrite <- Nat.succ_lt_mono, <- IH. split; [intros [E|H]|]; try tauto.
      congruence.
Qed.

Lemma put_after_middle t i l1 l2 :
  ~ In t l1 -> put_after t i (l1 ++ t :: l2) = l1 ++ t :: i :: l2.
Proof.
  induction l1 as [|j l IH]; cbn; intros H.
  - now rewrite Nat.eqb_refl.
  - destruct (Nat.eqb_spec j t) as [->|Hjt].
    + exfalso. apply H. now left.
    + f_equal. apply IH. intros Hin. apply H. now right.
Qed.

Lemma next_in_middle (i : Item) l1 l2 :
  ~ In i l1 ->
  nth_error (l1 ++ i :: l2) (S (index_in i (l1 ++ i :: l2))) = nth_error l2 0.
Proof.
  intros H. rewrite index_in_middle by assumption.
  rewrite nth_error_app2 by lia.
  replace (S (List.length l1) - List.length l1) with 1 by lia. reflexivity.
Qed.

Lemma NoDup_middle (i : Item) l1 l2 :
  NoDup (l1 ++ i :: l2) -> ~ In i l1 /\ ~ In i l2.
Proof.
  intros H. apply NoDup_remove_2 in H.
  split; intros Hin; apply H, in_or_app; auto.
Qed.

(** ** Sorting by depth index *)

Section Sorting.

Variable key : Item -> nat.

Let le_key (a b : Item) : Prop := key a <= key b.
Let lt_key (a b : Item) : Prop := key a < key b.

Lemma insert_sorted_perm a l : Permutation (insert_sorted key a l) (a :: l).
Proof.
  induction l as [|b t IH]; cbn; [reflexivity|].
  destruct (Nat.leb (key a) (key b)); [reflexivity|].
  rewrite IH. apply perm_swap.
Qed.

Lemma sort_perm l : Permutation (fold_right (insert_sorted key) [] l) l.
Proof.
  induction l as [|a t IH]; cbn; [reflexivity|].
  rewrite insert_sorted_perm. now apply perm_skip.
Qed.

Lemma insert_sorted_sorted a l :
  StronglySorted le_key l -> StronglySorted le_key (insert_sorted key a l).
Proof.
  induction 1 as [|b t Hs IH Hb]; cbn.
  - constructor; constructor.
  - destruct (Nat.leb_spec (key a) (key b)) as [Hab|Hab].
    + constructor; [now constructor|].
      constructor; [exact Hab|].
      eapply Forall_impl; [|exact Hb]. unfold le_key. intros c Hc. lia.
    + constructor; [exact IH|].
      eapply Permutation_Forall; [symmetry; apply insert_sorted_perm|].
      constructor; [unfold le_key; lia | exact Hb].
Qed.

Lemma sort_sorted l : StronglySorted le_key (fold_right (insert_sorted key) [] l).
Proof.
  induction l as [|a t IH]; cbn; [constructor|]. now apply insert_sorted_sorted.
Qed.

Lemma sorted_perm_unique l0 :
  StronglySorted lt_key l0 ->
  forall l, StronglySorted le_key l -> Permutation l l0 -> l = l0.
Proof.
  induction 1 as [|h0 t0 Hs0 IH H0]; intros l Hs HP.
  - apply Permutation_sym, Permutation_nil in HP. exact HP.
  - destruct l as [|h t].
    + apply Permutation_nil_cons in HP. contradiction.
    + apply StronglySorted_inv in Hs as [Hst Hh].
      assert (E : h = h0).
      { assert (Hin : In h (h0 :: t0)) by (eapply Permutation_in; [exact HP | now left]).
        destruct Hin as [E|Hin]; [now symmetry|].
        assert (Hin0 : In h0 (h :: t))
          by (eapply Permutation_in; [symmetry; exact HP | now left]).
        destruct Hin0 as [E|Hin0]; [assumption|].
        rewrite Forall_forall in H0, Hh.
        specialize (H0 _ Hin). specialize (Hh _ Hin0).
        unfold lt_key, le_key in *. lia. }
      subst h. f_equal. apply IH; [assumption|].
      eapply Permutation_cons_inv. exact HP.
Qed.

Lemma sort_of_permutation l l0 :
  StronglySorted lt_key l0 -> Permutation l l0 ->
  fold_right (insert_sorted key) [] l = l0.
Proof.
  intros Hs HP. apply sorted_perm_unique; [assumption | apply sort_sorted |].
  now rewrite sort_perm.
Qed.

End Sorting.

(** ** Visiting the items layer by layer *)

Lemma forEach_update_world {A} (f : A -> World -> World) (l : list A) s w :
  forEach l (fun a => update_world (f a)) (s, w) =
  (Return tt, (s, fold_left (fun w a => f a w) l w)).
Proof.
  revert w. induction l as [|a t IH]; intros w; [reflexivity|].
  cbn [forEach fold_left]. unfold bind at 1, update_world at 1. cbn [fst snd].
  apply IH.
Qed.

Lemma group_by_layer_one w L l acc :
  (forall i, In i l -> item_layer w i = Some L) ->
  group_by_layer w l [(L, acc)] = Return [(L, acc ++ l)].
Proof.
  revert acc. induction l as [|i t IH]; intros acc H; cbn.
  - now rewrite app_nil_r.
  - rewrite (H i) by now left. rewrite Nat.eqb_refl.
    rewrite IH by (intros j Hj; apply H; now right).
    now rewrite <- app_assoc.
Qed.

Lemma sortItemsByLayer_one w L l :
  l <> [] ->
  (forall i, In i l -> item_layer w i = Some L) ->
  _sortItemsByLayer w l = Return [l].
Proof.
  intros Hl H. destruct l as [|i t]; [congruence|].
  unfold _sortItemsByLayer. cbn.
  rewrite (H i) by now left. cbn.
  rewrite group_by_layer_one by (intros j Hj; apply H; now right).
  reflexivity.
Qed.

Lemma index_in_app_l i l1 l2 :
  In i l1 -> index_in i (l1 ++ l2) = index_in i l1.
Proof.
  induction l1 as [|j t IH]; cbn; intros H; [contradiction|].
  destruct (Nat.eqb_spec i j) as [->|Hij]; [reflexivity|].
  f_equal. apply IH. destruct H; [congruence | assumption].
Qed.

Lemma bringToFront_children w L i l1 l2 :
  item_layer w i = Some L ->
  layer_children w L = l1 ++ i :: l2 ->
  ~ In i (l1 ++ l2) ->
  layer_children (Scene.bringToFront i w) L = l1 ++ l2 ++ [i]
  /\ item_layer (Scene.bringToFront i w) = item_layer w.
Proof.
  intros Hl Hch Hi. unfold Scene.bringToFront. rewrite Hl. cbn.
  rewrite Nat.eqb_refl, Hch, without_middle by assumption.
  now rewrite app_assoc.
Qed.

(** ** bringToFront *)

(** C7. Let the children of a layer be [pre ++ [A; B; C] ++ post], three
    adjacent items in the depth order A, B, C, and let the selection hold
    exactly A, B and C, in any order. Then [bringToFront()] returns, the
    children of the layer become [pre ++ post ++ [A; B; C]]: A still
    precedes B, B still precedes C, and every item of the layer that is not
    selected is behind A. *)
Theorem bringToFront_three_adjacent
    (s : Selection) (w : World) (L : nat) (pre post : list Item) (A B C : Item) :
  Permutation (_items s) [A; B; C] ->
  (forall i, In i (layer_children w L) -> item_layer w i = Some L) ->
  layer_children w L = pre ++ [A; B; C] ++ post ->
  NoDup (layer_children w L) ->
  let r := bringToFront (s, w) in
  let w' := snd (snd r) in
  fst r = Return tt
  /\ layer_children w' L = pre ++ post ++ [A; B; C]
  /\ index w' A < index w' B
  /\ index w' B < index w' C
  /\ (forall n, In n (layer_children w' L) -> ~ In n (_items s) ->
                index w' n < index w' A).
Proof.
  intros HP Hwf Hch Hnd r w'.
  (* what the absence of duplicates says *)
  rewrite Hch in Hnd. cbn [app] in Hch, Hnd.
  pose proof (NoDup_middle A pre _ Hnd) as [HA1 HA2].
  pose proof (NoDup_remove_1 _ _ _ Hnd) as Hnd1.
  pose proof (NoDup_middle B pre _ Hnd1) as [HB1 HB2].
  pose proof (NoDup_remove_1 _ _ _ Hnd1) as Hnd2.
  pose proof (NoDup_middle C pre _ Hnd2) as [HC1 HC2].
  assert (HAB : A <> B) by (intros ->; apply HA2; now left).
  assert (HAC : A <> C) by (intros ->; apply HA2; right; now left).
  assert (HBC : B <> C) by (intros ->; apply HB2; now left).
  assert (HApost : ~ In A post) by (intros H; apply HA2; now do 2 right).
  assert (HBpost : ~ In B post) by (intros H; apply HB2; now right).
  assert (HlA : item_layer w A = Some L).
  { apply Hwf. rewrite Hch. apply in_or_app. right. now left. }
  assert (HlB : item_layer w B = Some L).
  { apply Hwf. rewrite Hch. apply in_or_app. right. right. now left. }
  assert (HlC : item_layer w C = Some L).
  { apply Hwf. rewrite Hch. apply in_or_app. right. now do 2 right; left. }
  assert (Hsel : forall i, In i (_items s) -> item_layer w i = Some L).
  { intros i Hi. apply (Permutation_in _ HP) in Hi.
    destruct Hi as [<-|[<-|[<-|[]]]]; assumption. }
  (* one group, sorted as A, B, C *)
  assert (Hsort : _sortItemsByZIndex w (_items s) = [A; B; C]).
  { apply sort_of_permutation; [|exact HP].
    assert (iA : index w A = List.length pre).
    { unfold index. rewrite HlA, Hch. now apply index_in_middle. }
    assert (iB : index w B = S (List.length pre)).
    { unfold index. rewrite HlB, Hch.
      change (pre ++ A :: B :: C :: post) with (pre ++ [A] ++ B :: C :: post).
      rewrite app_assoc, index_in_middle, length_app; [cbn; lia|].
      intros H. apply in_app_or in H as [H|[H|[]]]; [tauto | congruence]. }
    assert (iC : index w C = S (S (List.length pre))).
    { unfold index. rewrite HlC, Hch.
      change (pre ++ A :: B :: C :: post) with (pre ++ [A; B] ++ C :: post).
      rewrite app_assoc, index_in_middle, length_app; [cbn; lia|].
      intros H. apply in_app_or in H as [H|[H|[H|[]]]]; [tauto | congruence | congruence]. }
    repeat constructor; lia. }
  assert (Hne : _items s <> []).
  { intros E. rewrite E in HP. now apply Permutation_nil_cons in HP. }
  assert (Hrun : r = (Return tt,
                      (s, Scene.bringToFront C
                            (Scene.bringToFront B (Scene.bringToFront A w))))).
  { subst r. unfold bringToFront, forEach_layer.
    unfold bind at 1, this. cbn [fst snd].
    unfold bind at 1, world. cbn [fst snd].
    rewrite (sortItemsByLayer_one w L _ Hne Hsel).
    cbn [forEach]. unfold bind at 1. unfold bind at 1. cbn [fst snd].
    rewrite Hsort, forEach_update_world. reflexivity. }
  subst w'. rewrite Hrun. cbn [fst snd].
  (* the three moves *)
  destruct (bringToFront_children w L A pre (B :: C :: post) HlA Hch) as [E1 L1].
  { intros H. apply in_app_or in H as [H|H]; tauto. }
  set (w1 := Scene.bringToFront A w) in *.
  destruct (bringToFront_children w1 L B pre (C :: post ++ [A])) as [E2 L2].
  { now rewrite L1. }
  { exact E1. }
  { intros H. apply in_app_or in H as [H|[H|H]]; [tauto | congruence |].
    apply in_app_or in H as [H|[H|[]]]; [tauto | congruence]. }
  set (w2 := Scene.bringToFront B w1) in *.
  destruct (bringToFront_children w2 L C pre (post ++ [A] ++ [B])) as [E3 L3].
  { now rewrite L2, L1. }
  { rewrite E2. cbn. now rewrite <- app_assoc. }
  { intros H. apply in_app_or in H as [H|H]; [tauto|].
    apply in_app_or in H as [H|[H|[H|[]]]]; [tauto | congruence | congruence]. }
  set (w3 := Scene.bringToFront C w2) in *.
  assert (E : layer_children w3 L = (pre ++ post) ++ [A; B; C]).
  { rewrite E3. rewrite <- !app_assoc. reflexivity. }
  assert (Hl3 : item_layer w3 = item_layer w) by now rewrite L3, L2, L1.
  assert (Hpp : forall i, In i [A; B; C] -> ~ In i (pre ++ post)).
  { intros i [<-|[<-|[<-|[]]]] H; apply in_app_or in H as [H|H]; tauto. }
  assert (jA : index w3 A = List.length (pre ++ post)).
  { unfold index. rewrite Hl3, HlA, E. apply index_in_middle, Hpp. now left. }
  assert (jB : index w3 B = S (List.length (pre ++ post))).
  { unfold index. rewrite Hl3, HlB, E.
    change [A; B; C] with ([A] ++ B :: [C]).
    rewrite app_assoc, index_in_middle, length_app; [cbn; lia|].
    intros H. apply in_app_or in H as [H|[H|[]]]; [|congruence].
    revert H. apply Hpp. right. now left. }
  assert (jC : index w3 C = S (S (List.length (pre ++ post)))).
  { unfold index. rewrite Hl3, HlC, E.
    change [A; B; C] with ([A; B] ++ C :: []).
    rewrite app_assoc, index_in_middle, length_app; [cbn; lia|].
    intros H. apply in_app_or in H as [H|[H|[H|[]]]]; [|congruence|congruence].
    revert H. apply Hpp. now do 2 right; left. }
  split; [reflexivity|].
  split; [now rewrite E, <- app_assoc|].
  split; [lia|]. split; [lia|].
  intros n Hn Hns. rewrite E in Hn.
  apply in_app_or in Hn as [Hn|Hn].
  - unfold index at 1. rewrite Hl3, (Hwf n).
    + rewrite E, index_in_app_l by assumption.
      apply index_in_lt in Hn. lia.
    + rewrite Hch. apply in_app_or in Hn as [Hn|Hn]; apply in_or_app; [now left|].
      right. now do 3 right.
  - exfalso. apply Hns. eapply Permutation_in; [symmetry; exact HP | exact Hn].
Qed.

Lemma bringToFront_three_adjacent_witness :
  let s := Examples.selection_of [3; 1; 2] (mkRect 0 0 10 10) in
  let w' := snd (snd (bringToFront (s, Examples.scene5))) in
  layer_children Examples.scene5 0 = [4] ++ [1; 2; 3] ++ [5]
  /\ layer_children w' 0 = [4] ++ [5] ++ [1; 2; 3].
Proof.
  intros s w'. split; [reflexivity|].
  apply (bringToFront_three_adjacent s Examples.scene5 0 [4] [5] 1 2 3).
  - cbn. apply (perm_trans (perm_swap 1 3 [2])). apply perm_skip, perm_swap.
  - cbn. intros i [<-|[<-|[<-|[<-|[<-|[]]]]]]; reflexivity.
  - reflexivity.
  - cbn. repeat constructor; cbn; intuition lia.
Defined.

(** ** moveForwards *)

Lemma In_put_after t x l i :
  In t l -> (In i (put_after t x l) <-> i = x \/ In i l).
Proof.
  induction l as [|j l' IH]; cbn; [contradiction|]. intros Ht.
  destruct (Nat.eqb_spec j t) as [->|Hjt]; cbn.
  - split; [intros [H|[H|H]] | intros [H|[H|H]]]; auto.
  - destruct Ht as [Ht|Ht]; [contradiction|].
    rewrite (IH Ht). split; [intros [H|[H|H]] | intros [H|[H|H]]]; auto.
Qed.

Lemma forEach_forward l s w :
  forEach l
    (fun item =>
       bind this (fun s =>
       bind world (fun w =>
       match nextSibling w item with
       | Some sibling =>
           if negb (mem sibling (_items s))
           then update_world (insertAbove item sibling)
           else ret tt
       | None => ret tt
       end))) (s, w) =
  (Return tt, (s, fold_left (fun w item => forward_step (_items s) item w) l w)).
Proof.
  revert w. induction l as [|x t IH]; intros w; [reflexivity|].
  cbn [forEach fold_left]. unfold bind at 1.
  unfold bind at 1, this at 1. cbn [fst snd].
  unfold bind at 1, world at 1. cbn [fst snd].
  unfold forward_step at 2.
  destruct (nextSibling w x) as [nb|]; [|apply IH].
  destruct (negb (mem nb (_items s))); apply IH.
Qed.

Section Blocked.

Variables (sel : list Item) (w0 : World) (L : nat) (a : Item) (suf : list Item) (n : nat).

Hypothesis wf0 : well_formed w0.
Hypothesis a_selected : In a sel.
Hypothesis suf_selected : forall b, In b suf -> In b sel.

Lemma forward_step_inv w x :
  blocked_inv w0 L a suf n w -> In x sel ->
  blocked_inv w0 L a suf n (forward_step sel x w).
Proof.
  intros Hinv Hx. pose proof Hinv as (Hl & Hm & Hnd & p & Hp & Hlen).
  unfold forward_step, nextSibling, index.
  destruct (item_layer w x) as [k|] eqn:Ek; [|exact Hinv].
  set (ch := layer_children w k) in *.
  destruct (nth_error ch (S (index_in x ch))) as [nb|] eqn:En; [|exact Hinv].
  destruct (mem nb sel) eqn:Em; cbn [negb]; [exact Hinv|].
  apply mem_false in Em.
  assert (Hnb : In nb ch) by (eapply nth_error_In; exact En).
  assert (Hxch : In x ch).
  { apply index_in_lt. assert (S (index_in x ch) < List.length ch); [|lia].
    apply nth_error_Some. congruence. }
  assert (Hnx : nb <> x) by congruence.
  assert (Hlnb : item_layer w nb = Some k).
  { rewrite Hl. apply wf0. apply Hm. exact Hnb. }
  unfold insertAbove, detach. rewrite Hlnb, Ek. cbn. rewrite Nat.eqb_refl.
  fold ch.
  assert (Hmem : forall i, In i (put_after nb x (without x ch)) <-> In i ch).
  { intros i. rewrite In_put_after by (apply In_without; auto).
    rewrite In_without. destruct (Nat.eq_dec i x) as [->|]; tauto. }
  split; [exact Hl|]. split; [|cbn].
  { intros j i. cbn. destruct (Nat.eqb_spec j k) as [->|Hjk].
    - rewrite Hmem. apply Hm.
    - apply Hm. }
  destruct (Nat.eqb_spec L k) as [<-|HLk]; [|split; [assumption | now exists p]].
  (* the move is inside layer L: it happens among the first n items *)
  fold ch in Hnd, Hp. rewrite Hp in Hxch.
  apply in_app_or in Hxch as [Hxp|Hxs].
  - apply in_split in Hxp as (p1 & p2 & ->).
    rewrite <- app_assoc in Hp. cbn [app] in Hp.
    rewrite Hp in Hnd, En |- *.
    pose proof (NoDup_middle x p1 _ Hnd) as [Hx1 Hx2].
    rewrite next_in_middle in En by assumption.
    destruct p2 as [|nb' p3]; cbn in En; injection En as ->.
    { now elim Em. }
    assert (Hnb1 : ~ In nb p1).
    { apply NoDup_remove_1 in Hnd. now apply NoDup_middle in Hnd. }
    rewrite without_middle
      by (intros H; apply in_app_or in H as [H|H]; tauto).
    cbn [app]. rewrite put_after_middle by assumption.
    split.
    + eapply Permutation_NoDup; [|exact Hnd].
      apply Permutation_app_head, perm_swap.
    + exists (p1 ++ nb :: x :: p3). split.
      * now rewrite <- app_assoc.
      * rewrite !length_app in *. cbn in *. lia.
  - exfalso.
    apply in_split in Hxs as (s1 & s2 & Es).
    rewrite Es, app_assoc in Hp. rewrite Hp in Hnd, En.
    pose proof (NoDup_middle x _ _ Hnd) as [Hx1 _].
    rewrite next_in_middle in En by assumption.
    destruct s2 as [|nb' s3]; cbn in En; [discriminate|]. injection En as ->.
    apply Em, suf_selected.
    destruct s1 as [|a' s1']; cbn in Es; injection Es as _ ->.
    + now left.
    + apply in_or_app. right. right. now left.
Qed.

Lemma forward_steps_inv l w :
  blocked_inv w0 L a suf n w -> (forall x, In x l -> In x sel) ->
  blocked_inv w0 L a suf n (fold_left (fun w item => forward_step sel item w) l w).
Proof.
  revert w. induction l as [|x t IH]; intros w Hw Hl; [exact Hw|].
  cbn. apply IH.
  - apply forward_step_inv; [exact Hw | apply Hl; now left].
  - intros y Hy. apply Hl. now right.
Qed.

End Blocked.

Lemma In_grouped_push x k i g :
  In x (grouped (push k i g)) -> x = i \/ In x (grouped g).
Proof.
  unfold grouped. induction g as [|[k' l] rest IH].
  - cbn. intros [H|[]]; auto.
  - cbn [push]. destruct (Nat.eqb k k'); [|destruct (Nat.ltb k k')]; cbn.
    + rewrite <- app_assoc. intros H.
      apply in_app_or in H as [H|H]; [right; apply in_or_app; now left|].
      destruct H as [H|H]; [now left | right; apply in_or_app; now right].
    + intros [H|H]; auto.
    + intros H. apply in_app_or in H as [H|H].
      * right. apply in_or_app. now left.
      * destruct (IH H) as [E|H']; [now left | right; apply in_or_app; now right].
Qed.

Lemma group_by_layer_returns w l :
  (forall i, In i l -> item_layer w i <> None) ->
  forall acc, exists g,
    group_by_layer w l acc = Return g
    /\ forall x, In x (grouped g) -> In x (grouped acc) \/ In x l.
Proof.
  induction l as [|i t IH]; intros H acc; cbn.
  - exists acc. auto.
  - destruct (item_layer w i) as [k|] eqn:Ek.
    + destruct (IH (fun j Hj => H j (or_intror Hj)) (push k i acc)) as (g & Eg & Hg).
      exists g. split; [exact Eg|]. intros x Hx.
      destruct (Hg x Hx) as [Hp|Ht]; [|now right; right].
      apply In_grouped_push in Hp as [->|Hp]; auto.
    + exfalso. apply (H i); [now left | exact Ek].
Qed.

Lemma sortItemsByLayer_returns w l :
  (forall i, In i l -> item_layer w i <> None) ->
  exists groups,
    _sortItemsByLayer w l = Return groups
    /\ forall g x, In g groups -> In x g -> In x l.
Proof.
  intros H. destruct (group_by_layer_returns w l H []) as (g & Eg & Hg).
  exists (map snd g). unfold _sortItemsByLayer. rewrite Eg.
  split; [reflexivity|]. intros items x Hitems Hx.
  destruct (Hg x) as [[]|Hl]; [|exact Hl].
  unfold grouped. apply in_concat. now exists items.
Qed.

Lemma forEach_layer_run visit s w groups :
  _sortItemsByLayer w (_items s) = Return groups ->
  forEach_layer visit (s, w) = forEach groups visit (s, w).
Proof.
  intros H. unfold forEach_layer, bind, this, world. cbn [fst snd].
  now rewrite H.
Qed.

Lemma forEach_inv {A} (P : Selection * World -> Prop) (f : A -> M unit) (l : list A) :
  (forall a st, In a l -> P st -> fst (f a st) = Return tt /\ P (snd (f a st))) ->
  forall st, P st ->
    fst (forEach l f st) = Return tt /\ P (snd (forEach l f st)).
Proof.
  induction l as [|a t IH]; intros Hf st Hst; [now split|].
  cbn [forEach]. unfold bind.
  destruct (Hf a st (or_introl eq_refl) Hst) as [Er HP].
  destruct (f a st) as [[[]|e] st']; cbn in Er, HP; [|discriminate].
  apply IH; [|exact HP].
  intros b st'' Hb. apply Hf. now right.
Qed.

(** C8, as the code has it. In a well-formed scene where every selected
    item has a layer, let [a] be a selected item such that every item in
    front of it in its layer is selected too (so that its next sibling is
    still a selected item when [a] is visited). Then [moveForwards()]
    returns and does not move [a]: its depth index is unchanged, and so are
    the items in front of it. *)
Theorem moveForwards_blocked_item
    (s : Selection) (w : World) (L : nat) (pre suf : list Item) (a : Item) :
  well_formed w ->
  (forall i, In i (_items s) -> item_layer w i <> None) ->
  layer_children w L = pre ++ a :: suf ->
  NoDup (layer_children w L) ->
  In a (_items s) ->
  (forall b, In b suf -> In b (_items s)) ->
  let r := moveForwards (s, w) in
  let w' := snd (snd r) in
  fst r = Return tt
  /\ index w' a = index w a
  /\ exists pre', layer_children w' L = pre' ++ a :: suf
                  /\ List.length pre' = List.length pre.
Proof.
  intros Hwf Hlay Hch Hnd Ha Hsuf r w'.
  set (P := fun st : Selection * World =>
              fst st = s /\ blocked_inv w L a suf (List.length pre) (snd st)).
  assert (P0 : P (s, w)).
  { split; [reflexivity|]. repeat split; try tauto. now exists pre. }
  destruct (sortItemsByLayer_returns w (_items s) Hlay) as (groups & Eg & Hg).
  assert (Hrun : fst r = Return tt /\ P (snd r)).
  { subst r. unfold moveForwards.
    rewrite (forEach_layer_run _ s w groups Eg).
    apply (forEach_inv P); [|exact P0].
    intros g [s1 w1] Hin [Es Hinv]. cbn in Es. subst s1.
    unfold bind, world. cbn [fst snd].
    rewrite forEach_forward. cbn [fst snd].
    split; [reflexivity|]. split; [reflexivity|]. cbn [snd].
    apply forward_steps_inv; try assumption.
    intros x Hx. apply (Hg g); [exact Hin|].
    apply in_rev in Hx.
    eapply Permutation_in; [apply sort_perm | exact Hx]. }
  destruct Hrun as [Er [_ (Hl & _ & Hnd' & p & Hp & Hlen)]].
  fold w' in Hl, Hnd', Hp.
  split; [exact Er|]. split; [|now exists p].
  assert (Hla : item_layer w a = Some L).
  { apply Hwf. rewrite Hch. apply in_or_app. right. now left. }
  unfold index. rewrite Hl, Hla, Hp, Hch.
  rewrite Hp in Hnd'. rewrite Hch in Hnd.
  apply NoDup_middle in Hnd as [H1 _]. apply NoDup_middle in Hnd' as [H2 _].
  rewrite !index_in_middle by assumption. exact Hlen.
Qed.

Lemma moveForwards_blocked_item_witness :
  let s := Examples.selection_of [3; 2] (mkRect 20 20 10 10) in
  let w' := snd (snd (moveForwards (s, Examples.scene))) in
  nextSibling Examples.scene 2 = Some 3
  /\ index Examples.scene 2 = 1
  /\ index w' 2 = index Examples.scene 2.
Proof.
  intros s w'. split; [reflexivity|]. split; [reflexivity|].
  apply (moveForwards_blocked_item s Examples.scene 0 [1] [3] 2).
  - intros i l. cbn.
    destruct (Nat.eqb_spec l 0) as [->|Hl]; cbn.
    + split.
      * destruct i as [|[|[|[|i]]]]; cbn; intros H; try discriminate; auto.
      * intros [<-|[<-|[<-|[]]]]; reflexivity.
    + split; [|contradiction].
      destruct (_ && _); [|discriminate].
      intros H. injection H as H. congruence.
  - cbn. intros i [<-|[<-|[]]]; discriminate.
  - reflexivity.
  - cbn. repeat constructor; cbn; intuition lia.
  - cbn. now right; left.
  - cbn. intros b [<-|[]]. now left.
Defined.

(** C8, as stated, fails when a selected run has an item that is not
    selected in front of it. In the layer with the children 1, 2, 3, take
    the selection built from the items 1 and 2 (its GUI in another layer):
    the next sibling of item 1 is the selected item 2; [moveForwards()]
    first moves 2 above 3 and then, 3 being the next sibling of 1 by now,
    moves 1 above 3 as well: the index of item 1 goes from 0 to 1. *)
Lemma moveForwards_moves_item_behind_selected_sibling :
  let st := snd (new_Selection (Some Examples.args_items12) Examples.scene) in
  let w' := snd (snd (moveForwards st)) in
  _items (fst st) = [1; 2]
  /\ layer_children (snd st) 0 = [1; 2; 3]
  /\ nextSibling (snd st) 1 = Some 2
  /\ mem 2 (_items (fst st)) = true
  /\ index (snd st) 1 = 0
  /\ fst (moveForwards st) = Return tt
  /\ layer_children w' 0 = [3; 1; 2]
  /\ index w' 1 = 1
  /\ index w' 1 <> index (snd st) 1.
Proof.
  cbv zeta. repeat split; try reflexivity.
  cbn. discriminate.
Qed.

(** * Further properties *)

Import Notions.

(** ** The bounds of the items *)

(** X1. For a sequence with at least one item, the top-left corner of the
    rectangle that [_getBoundsOfItems] returns has the least left edge and
    the least top edge of the items: by [Math.min] each of the two is at
    or before that edge of every item (and at most that edge by [<=],
    unless it is NaN), and each is that edge of one of the items. *)
Theorem getBoundsOfItems_topLeft_least (w : World) (items : list Item) :
  items <> [] ->
  let r := Selection._getBoundsOfItems w items in
  (forall i, In i items ->
     Math_min (rx r) (rx (item_bounds w i)) = rx r
     /\ Math_min (ry r) (ry (item_bounds w i)) = ry r)
  /\ (forall i, In i items ->
        (is_nan (rx r) = false -> (rx r <=? rx (item_bounds w i))%float = true)
        /\ (is_nan (ry r) = false -> (ry r <=? ry (item_bounds w i))%float = true))
  /\ (exists i, In i items /\ rx r = rx (item_bounds w i))
  /\ (exists i, In i items /\ ry r = ry (item_bounds w i)).
Proof.
  intros Hne r. subst r.
  destruct (getBoundsOfItems_edge_least w rx items (fun _ _ => eq_refl) Hne) as [X1 X2].
  destruct (getBoundsOfItems_edge_least w ry items (fun _ _ => eq_refl) Hne) as [Y1 Y2].
  split; [|split; [|split; assumption]].
  - intros i Hi. split; [now apply X1 | now apply Y1].
  - intros i Hi. split; intros N; apply Math_min_leb; auto.
Qed.

Lemma getBoundsOfItems_topLeft_least_witness :
  exists i, In i [2; 1]
            /\ rx (Selection._getBoundsOfItems Examples.scene [2; 1]) =
               rx (item_bounds Examples.scene i).
Proof.
  apply (getBoundsOfItems_topLeft_least Examples.scene [2; 1]).
  discriminate.
Defined.

(** ** Grouping by layer *)

Lemma group_by_layer_throws w l :
  (exists i, In i l /\ item_layer w i = None) ->
  forall acc,
    group_by_layer w l acc =
    Throw (TypeError "Cannot read properties of null (reading 'id')").
Proof.
  induction l as [|j t IH]; intros (i & Hi & Ei) acc; [contradiction|].
  cbn. destruct (item_layer w j) as [k|] eqn:Ej; [|reflexivity].
  apply IH. exists i. split; [|exact Ei].
  destruct Hi as [->|Hi]; [congruence | exact Hi].
Qed.

(** X2. [_sortItemsByLayer] returns when every item has a layer, and
    throws a TypeError (the read of [item.layer.id] on [null]) as soon as
    one item has none. *)
Theorem sortItemsByLayer_throws_without_layer (w : World) (l : list Item) :
  ((forall i, In i l -> item_layer w i <> None) ->
   exists groups, _sortItemsByLayer w l = Return groups)
  /\ ((exists i, In i l /\ item_layer w i = None) ->
      _sortItemsByLayer w l =
      Throw (TypeError "Cannot read properties of null (reading 'id')")).
Proof.
  split.
  - intros H. destruct (sortItemsByLayer_returns w l H) as (g & E & _). eauto.
  - intros H. unfold _sortItemsByLayer.
    now rewrite (group_by_layer_throws w l H).
Qed.

Lemma sortItemsByLayer_throws_without_layer_witness :
  _sortItemsByLayer Examples.scene [1; 7] =
  Throw (TypeError "Cannot read properties of null (reading 'id')").
Proof.
  apply (proj2 (sortItemsByLayer_throws_without_layer Examples.scene [1; 7])).
  exists 7. split; [right; now left | reflexivity].
Defined.

Section Grouping.

Variable w : World.

(** What [layerLists] holds after the items of [p] have been seen. *)
Let grouped_upto (p : list Item) (acc : list (nat * list Item)) : Prop :=
  StronglySorted lt (map fst acc)
  /\ Forall (fun kg => snd kg = filter (in_layer w (fst kg)) p /\ snd kg <> []) acc
  /\ (forall i k, In i p -> item_layer w i = Some k -> In k (map fst acc)).

Lemma in_layer_true k i : in_layer w k i = true <-> item_layer w i = Some k.
Proof.
  unfold in_layer. destruct (item_layer w i) as [k'|]; [|split; discriminate].
  rewrite Nat.eqb_eq. split; congruence.
Qed.

Lemma filter_in_layer_snoc k k' p i :
  item_layer w i = Some k ->
  filter (in_layer w k') (p ++ [i]) =
  filter (in_layer w k') p ++ (if Nat.eqb k k' then [i] else []).
Proof.
  intros E. rewrite filter_app. cbn. unfold in_layer at 2. now rewrite E.
Qed.

Lemma filter_in_layer_nil k p :
  (forall i, In i p -> item_layer w i <> Some k) -> filter (in_layer w k) p = [].
Proof.
  induction p as [|j t IH]; intros H; [reflexivity|]. cbn.
  destruct (in_layer w k j) eqn:E.
  - apply in_layer_true in E. exfalso. apply (H j); [now left | exact E].
  - apply IH. intros i Hi. apply H. now right.
Qed.

Lemma push_keys k i acc k' :
  In k' (map fst (push k i acc)) <-> k' = k \/ In k' (map fst acc).
Proof.
  induction acc as [|[k0 l0] rest IH]; cbn [push].
  - cbn. intuition.
  - destruct (Nat.eqb_spec k k0) as [->|Hk]; [cbn; intuition|].
    destruct (Nat.ltb k k0); cbn; [intuition|].
    cbn in IH. rewrite IH. intuition.
Qed.

Lemma push_sorted k i acc :
  StronglySorted lt (map fst acc) -> StronglySorted lt (map fst (push k i acc)).
Proof.
  induction acc as [|[k0 l0] rest IH]; cbn [push]; intros Hs.
  - cbn. repeat constructor.
  - cbn in Hs. apply StronglySorted_inv in Hs as [Hs Hh].
    destruct (Nat.eqb_spec k k0) as [->|Hk]; [cbn; now constructor|].
    destruct (Nat.ltb_spec k k0) as [Hlt|Hge]; cbn.
    + constructor; [now constructor|].
      constructor; [exact Hlt|].
      eapply Forall_impl; [|exact Hh]. cbn. intros; lia.
    + constructor; [now apply IH|].
      apply Forall_forall. intros k' Hk'. apply push_keys in Hk' as [->|Hk'].
      * lia.
      * rewrite Forall_forall in Hh. now apply Hh.
Qed.

Lemma push_entries k i acc k' g :
  StronglySorted lt (map fst acc) ->
  In (k', g) (push k i acc) ->
  (k' = k /\ ((~ In k (map fst acc) /\ g = [i])
              \/ exists g0, In (k, g0) acc /\ g = g0 ++ [i]))
  \/ (k' <> k /\ In (k', g) acc).
Proof.
  induction acc as [|[k0 l0] rest IH]; cbn [push]; intros Hs Hin.
  - destruct Hin as [E|[]]. injection E as <- <-. left. split; [reflexivity|].
    left. split; [tauto | reflexivity].
  - cbn in Hs. apply StronglySorted_inv in Hs as [Hs Hh].
    rewrite Forall_forall in Hh.
    assert (Hkeys : forall g', In (k', g') rest -> k0 < k').
    { intros g' Hg'. apply Hh. apply in_map_iff. now exists (k', g'). }
    destruct (Nat.eqb_spec k k0) as [->|Hk].
    + destruct Hin as [E|Hin].
      * injection E as <- <-. left. split; [reflexivity|]. right.
        exists l0. split; [now left | reflexivity].
      * right. split; [|now right]. specialize (Hkeys _ Hin). lia.
    + destruct (Nat.ltb_spec k k0) as [Hlt|Hge].
      * destruct Hin as [E|Hin].
        -- injection E as <- <-. left. split; [reflexivity|]. left.
           split; [|reflexivity]. cbn. intros [E|Hin]; [lia|].
           specialize (Hh _ Hin). lia.
        -- right. split; [|exact Hin].
           destruct Hin as [E|Hin]; [injection E as <- _; lia|].
           specialize (Hkeys _ Hin). lia.
      * destruct Hin as [E|Hin].
        -- injection E as <- <-. right. split; [congruence | now left].
        -- destruct (IH Hs Hin) as [[-> [[Hn ->]|(g0 & Hg0 & ->)]]|[Hne Hr]].
           ++ left. split; [reflexivity|]. left. split; [|reflexivity].
              cbn. intros [E|Hn']; [congruence | contradiction].
           ++ left. split; [reflexivity|]. right. exists g0.
              split; [now right | reflexivity].
           ++ right. split; [exact Hne | now right].
Qed.

Lemma push_grouped p acc k i :
  grouped_upto p acc -> item_layer w i = Some k ->
  grouped_upto (p ++ [i]) (push k i acc).
Proof.
  intros (Hs & Hf & Hk) Ei. rewrite Forall_forall in Hf.
  split; [now apply push_sorted|]. split.
  - apply Forall_forall. intros [k' g] Hin. cbn.
    rewrite (filter_in_layer_snoc k k' p i Ei).
    destruct (push_entries k i acc k' g Hs Hin)
      as [[-> [[Hn ->]|(g0 & Hg0 & ->)]]|[Hne Hr]].
    + rewrite Nat.eqb_refl. split; [|discriminate].
      rewrite filter_in_layer_nil; [reflexivity|].
      intros j Hj Ej. apply Hn. exact (Hk j k Hj Ej).
    + rewrite Nat.eqb_refl. destruct (Hf _ Hg0) as [E _]. cbn in E.
      split; [now rewrite E | now destruct g0].
    + destruct (Nat.eqb_spec k k') as [E|_]; [congruence|].
      rewrite app_nil_r. exact (Hf _ Hr).
  - intros j k' Hj Ej. apply push_keys.
    apply in_app_or in Hj as [Hj|[<-|[]]]; [right; eauto | left; congruence].
Qed.

Lemma group_by_layer_grouped l p acc g :
  grouped_upto p acc ->
  group_by_layer w l acc = Return g ->
  grouped_upto (p ++ l) g.
Proof.
  revert p acc. induction l as [|i t IH]; intros p acc Hacc E; cbn in E.
  - injection E as <-. now rewrite app_nil_r.
  - destruct (item_layer w i) as [k|] eqn:Ei; [|discriminate].
    replace (p ++ i :: t) with ((p ++ [i]) ++ t) by now rewrite <- app_assoc.
    eapply IH; [|exact E]. now apply push_grouped.
Qed.

Lemma sortItemsByLayer_groups l groups :
  _sortItemsByLayer w l = Return groups ->
  exists keys,
    StronglySorted lt keys
    /\ groups = map (fun k => filter (in_layer w k) l) keys
    /\ (forall k, In k keys <-> exists i, In i l /\ item_layer w i = Some k).
Proof.
  unfold _sortItemsByLayer.
  destruct (group_by_layer w l []) as [g|e] eqn:E; [|discriminate].
  intros H. injection H as <-.
  assert (H0 : grouped_upto [] []).
  { split; [constructor|]. split; [constructor|]. intros i k []. }
  destruct (group_by_layer_grouped l [] [] g H0 E) as (Hs & Hf & Hk).
  cbn [app] in Hf, Hk. rewrite Forall_forall in Hf.
  exists (map fst g). split; [exact Hs|]. split.
  - rewrite map_map. apply map_ext_in. intros kg Hkg. now destruct (Hf _ Hkg).
  - intros k. split.
    + intros Hin. apply in_map_iff in Hin as ([k' gk] & <- & Hkg).
      destruct (Hf _ Hkg) as [Eg Hne]. cbn in *.
      destruct gk as [|i gk']; [congruence|].
      assert (Hi : In i (filter (in_layer w k') l)) by (rewrite <- Eg; now left).
      apply filter_In in Hi as [Hi Hl]. exists i. split; [exact Hi|].
      now apply in_layer_true.
    + intros (i & Hi & Ei). exact (Hk i k Hi Ei).
Qed.

End Grouping.

(** X3. When [_sortItemsByLayer] returns, its groups are, for the ids of
    the layers that hold at least one of the items and in ascending order
    of these ids, the items of that layer in the order in which they were
    given: no item is lost, none is repeated, no group is empty. *)
Theorem sortItemsByLayer_partitions
    (w : World) (l : list Item) (groups : list (list Item)) :
  _sortItemsByLayer w l = Return groups ->
  exists keys,
    StronglySorted lt keys
    /\ groups = map (fun k => filter (in_layer w k) l) keys
    /\ (forall k, In k keys <-> exists i, In i l /\ item_layer w i = Some k).
Proof. apply sortItemsByLayer_groups. Qed.

Lemma sortItemsByLayer_partitions_witness :
  exists keys,
    StronglySorted lt keys
    /\ [[3; 1]] = map (fun k => filter (in_layer Examples.scene k) [3; 1]) keys
    /\ (forall k, In k keys <->
                  exists i, In i [3; 1] /\ item_layer Examples.scene i = Some k).
Proof.
  apply (sortItemsByLayer_partitions Examples.scene [3; 1] [[3; 1]]).
  reflexivity.
Defined.

(** ** Sorting by depth *)

(** X4. [_sortItemsByZIndex] returns the same items, each as often as it
    was given, in ascending order of [item.index]. *)
Theorem sortItemsByZIndex_sorts (w : World) (l : list Item) :
  Permutation (_sortItemsByZIndex w l) l
  /\ StronglySorted (fun a b => index w a <= index w b) (_sortItemsByZIndex w l).
Proof.
  split; [apply sort_perm | apply sort_sorted].
Qed.

(** ** The selected items of one layer, in depth order *)

Lemma index_in_app_r i l1 l2 :
  ~ In i l1 -> index_in i (l1 ++ l2) = List.length l1 + index_in i l2.
Proof.
  induction l1 as [|j t IH]; cbn; intros H; [reflexivity|].
  destruct (Nat.eqb_spec i j) as [->|Hij].
  - exfalso. apply H. now left.
  - f_equal. apply IH. intros Hin. apply H. now right.
Qed.

Lemma StronglySorted_impl_in {A} (R R' : A -> A -> Prop) l :
  (forall a b, In a l -> In b l -> R a b -> R' a b) ->
  StronglySorted R l -> StronglySorted R' l.
Proof.
  induction l as [|x t IH]; intros H Hs; [constructor|].
  apply StronglySorted_inv in Hs as [Hs Hx]. constructor.
  - apply IH; [|exact Hs]. intros a b Ha Hb. apply H; now right.
  - rewrite Forall_forall in Hx |- *. intros b Hb.
    apply H; [now left | now right | now apply Hx].
Qed.

Lemma NoDup_app_In {A} (l1 l2 : list A) a :
  NoDup (l1 ++ l2) -> In a l1 -> In a l2 -> False.
Proof.
  induction l1 as [|x t IH]; cbn; intros Hnd H1 H2; [contradiction|].
  apply NoDup_cons_iff in Hnd as [Hx Hnd].
  destruct H1 as [->|H1]; [|now apply IH].
  apply Hx, in_or_app. now right.
Qed.

Lemma filter_sorted_by_position (f : Item -> bool) pre rest :
  NoDup (pre ++ rest) ->
  StronglySorted (fun a b => index_in a (pre ++ rest) < index_in b (pre ++ rest))
                 (filter f rest).
Proof.
  revert pre. induction rest as [|x t IH]; intros pre Hnd; [constructor|].
  assert (Ht : StronglySorted
                 (fun a b => index_in a (pre ++ x :: t) < index_in b (pre ++ x :: t))
                 (filter f t)).
  { specialize (IH (pre ++ [x])). rewrite <- app_assoc in IH. now apply IH. }
  cbn. destruct (f x); [|exact Ht].
  constructor; [exact Ht|].
  apply Forall_forall. intros b Hb. apply filter_In in Hb as [Hb _].
  pose proof (NoDup_middle x pre t Hnd) as [Hx1 Hx2].
  rewrite index_in_middle by assumption.
  assert (Hb1 : ~ In b pre).
  { intros Hin. apply (NoDup_app_In pre (x :: t) b Hnd Hin). now right. }
  rewrite index_in_app_r by assumption. cbn.
  destruct (Nat.eqb_spec b x) as [->|_]; [contradiction | lia].
Qed.

Lemma sort_is_filter w L sel :
  NoDup sel -> NoDup (layer_children w L) ->
  (forall i, In i sel -> item_layer w i = Some L /\ In i (layer_children w L)) ->
  _sortItemsByZIndex w sel = filter (fun i => mem i sel) (layer_children w L).
Proof.
  intros Hs Hc H. apply sort_of_permutation.
  - apply StronglySorted_impl_in
      with (R := fun a b => index_in a (layer_children w L) <
                            index_in b (layer_children w L)).
    + intros a b Ha Hb. apply filter_In in Ha as [_ Ha], Hb as [_ Hb].
      apply mem_In in Ha, Hb. unfold index.
      now rewrite (proj1 (H a Ha)), (proj1 (H b Hb)).
    + apply (filter_sorted_by_position _ []). exact Hc.
  - apply NoDup_Permutation; [exact Hs | now apply NoDup_filter|].
    intros x. rewrite filter_In, mem_In. split; [|tauto].
    intros Hx. split; [apply H, Hx | exact Hx].
Qed.

(** ** bringToFront and sendToBack on a selection in one layer *)

Lemma filter_without (l t : list Item) i :
  filter (fun j => negb (mem j t)) (without i l) =
  filter (fun j => negb (mem j (i :: t))) l.
Proof.
  unfold without. induction l as [|x l' IH]; [reflexivity|]. cbn.
  destruct (Nat.eqb_spec x i) as [->|Hxi]; cbn.
  - exact IH.
  - now rewrite IH.
Qed.

Lemma bringToFront_fold l :
  NoDup l ->
  forall w L,
    (forall i, In i l -> item_layer w i = Some L) ->
    let w' := fold_left (fun w i => Scene.bringToFront i w) l w in
    layer_children w' L =
      filter (fun j => negb (mem j l)) (layer_children w L) ++ l
    /\ item_layer w' = item_layer w
    /\ (forall k, k <> L -> layer_children w' k = layer_children w k).
Proof.
  induction 1 as [|i t Hi Hnd IH]; intros w L Hl; cbn [fold_left].
  - cbn. split; [|split; [reflexivity | reflexivity]].
    rewrite app_nil_r. induction (layer_children w L); cbn; congruence.
  - set (w1 := Scene.bringToFront i w).
    assert (E1 : layer_children w1 L = without i (layer_children w L) ++ [i]).
    { unfold w1, Scene.bringToFront. rewrite (Hl i) by now left.
      cbn. now rewrite Nat.eqb_refl. }
    assert (L1 : item_layer w1 = item_layer w).
    { unfold w1, Scene.bringToFront. now rewrite (Hl i) by now left. }
    assert (O1 : forall k, k <> L -> layer_children w1 k = layer_children w k).
    { intros k Hk. unfold w1, Scene.bringToFront. rewrite (Hl i) by now left.
      cbn. now destruct (Nat.eqb_spec k L). }
    destruct (IH w1 L) as (E & Li & O).
    { intros j Hj. rewrite L1. apply Hl. now right. }
    split; [|split].
    + rewrite E, E1, filter_app, filter_without. cbn [filter].
      apply mem_false in Hi. rewrite Hi. cbn. now rewrite <- app_assoc.
    + now rewrite Li.
    + intros k Hk. now rewrite O, O1.
Qed.

Lemma sendToBack_fold l :
  NoDup l ->
  forall w L,
    (forall i, In i l -> item_layer w i = Some L) ->
    let w' := fold_left (fun w i => Scene.sendToBack i w) l w in
    layer_children w' L =
      rev l ++ filter (fun j => negb (mem j l)) (layer_children w L)
    /\ item_layer w' = item_layer w
    /\ (forall k, k <> L -> layer_children w' k = layer_children w k).
Proof.
  induction 1 as [|i t Hi Hnd IH]; intros w L Hl; cbn [fold_left].
  - cbn. split; [|split; [reflexivity | reflexivity]].
    induction (layer_children w L); cbn; congruence.
  - set (w1 := Scene.sendToBack i w).
    assert (E1 : layer_children w1 L = i :: without i (layer_children w L)).
    { unfold w1, Scene.sendToBack. rewrite (Hl i) by now left.
      cbn. now rewrite Nat.eqb_refl. }
    assert (L1 : item_layer w1 = item_layer w).
    { unfold w1, Scene.sendToBack. now rewrite (Hl i) by now left. }
    assert (O1 : forall k, k <> L -> layer_children w1 k = layer_children w k).
    { intros k Hk. unfold w1, Scene.sendToBack. rewrite (Hl i) by now left.
      cbn. now destruct (Nat.eqb_spec k L). }
    destruct (IH w1 L) as (E & Li & O).
    { intros j Hj. rewrite L1. apply Hl. now right. }
    split; [|split].
    + rewrite E, E1. cbn [filter rev].
      apply mem_false in Hi. rewrite Hi. cbn [negb].
      now rewrite filter_without, <- app_assoc.
    + now rewrite Li.
    + intros k Hk. now rewrite O, O1.
Qed.

Lemma bringToFront_run s w L :
  _items s <> [] ->
  (forall i, In i (_items s) -> item_layer w i = Some L) ->
  Selection.bringToFront (s, w) =
  (Return tt,
   (s, fold_left (fun w i => Scene.bringToFront i w)
                 (_sortItemsByZIndex w (_items s)) w)).
Proof.
  intros Hne Hl. unfold Selection.bringToFront.
  rewrite (forEach_layer_run _ s w [_items s] (sortItemsByLayer_one w L _ Hne Hl)).
  cbn [forEach]. unfold bind, world. cbn [fst snd].
  now rewrite forEach_update_world.
Qed.

Lemma sendToBack_run s w L :
  _items s <> [] ->
  (forall i, In i (_items s) -> item_layer w i = Some L) ->
  Selection.sendToBack (s, w) =
  (Return tt,
   (s, fold_left (fun w i => Scene.sendToBack i w)
                 (rev (_sortItemsByZIndex w (_items s))) w)).
Proof.
  intros Hne Hl. unfold Selection.sendToBack.
  rewrite (forEach_layer_run _ s w [_items s] (sortItemsByLayer_one w L _ Hne Hl)).
  cbn [forEach]. unfold bind, world. cbn [fst snd].
  now rewrite forEach_update_world.
Qed.

Lemma not_mem_sorted w sel j :
  negb (mem j (_sortItemsByZIndex w sel)) = negb (mem j sel).
Proof.
  f_equal. apply eq_true_iff_eq. rewrite !mem_In.
  split; apply Permutation_in; [|symmetry]; apply sort_perm.
Qed.

(** X5. For a selection without repeated items, all children of one layer
    that has no repeated child, [bringToFront()] returns and leaves the
    layer with the children that are not selected, in their order,
    followed by the selected ones, in their order; the other layers keep
    their children. *)
Theorem bringToFront_one_layer (s : Selection) (w : World) (L : nat) :
  _items s <> [] ->
  NoDup (_items s) ->
  NoDup (layer_children w L) ->
  (forall i, In i (_items s) ->
             item_layer w i = Some L /\ In i (layer_children w L)) ->
  let r := Selection.bringToFront (s, w) in
  let w' := snd (snd r) in
  fst r = Return tt
  /\ fst (snd r) = s
  /\ layer_children w' L =
       filter (fun j => negb (mem j (_items s))) (layer_children w L)
       ++ filter (fun j => mem j (_items s)) (layer_children w L)
  /\ (forall k, k <> L -> layer_children w' k = layer_children w k).
Proof.
  intros Hne Hnd Hc H r w'. subst w' r.
  rewrite (bringToFront_run s w L Hne (fun i Hi => proj1 (H i Hi))). cbn [fst snd].
  split; [reflexivity|]. split; [reflexivity|].
  destruct (bringToFront_fold (_sortItemsByZIndex w (_items s))) with (w := w) (L := L)
    as (E & _ & O).
  { eapply Permutation_NoDup; [symmetry; apply sort_perm | exact Hnd]. }
  { intros i Hi. apply H. eapply Permutation_in; [apply sort_perm | exact Hi]. }
  split; [|exact O].
  rewrite E. rewrite (filter_ext _ _ (not_mem_sorted w (_items s))).
  now rewrite (sort_is_filter w L (_items s) Hnd Hc H).
Qed.

Lemma bringToFront_one_layer_witness :
  let s := Examples.selection_of [5; 1] (mkRect 0 0 10 10) in
  layer_children (snd (snd (Selection.bringToFront (s, Examples.scene5)))) 0 =
  [4; 2; 3] ++ [1; 5].
Proof.
  intros s.
  apply (bringToFront_one_layer s Examples.scene5 0).
  - discriminate.
  - repeat constructor; cbn; intuition lia.
  - cbn. repeat constructor; cbn; intuition lia.
  - cbn. intros i [<-|[<-|[]]]; split; auto 6.
Defined.

(** X6. For a selection without repeated items, all children of one layer
    that has no repeated child, [sendToBack()] returns and leaves the layer
    with the selected children, in their order, followed by the ones that
    are not selected, in their order; the other layers keep their
    children. *)
Theorem sendToBack_one_layer (s : Selection) (w : World) (L : nat) :
  _items s <> [] ->
  NoDup (_items s) ->
  NoDup (layer_children w L) ->
  (forall i, In i (_items s) ->
             item_layer w i = Some L /\ In i (layer_children w L)) ->
  let r := Selection.sendToBack (s, w) in
  let w' := snd (snd r) in
  fst r = Return tt
  /\ fst (snd r) = s
  /\ layer_children w' L =
       filter (fun j => mem j (_items s)) (layer_children w L)
       ++ filter (fun j => negb (mem j (_items s))) (layer_children w L)
  /\ (forall k, k <> L -> layer_children w' k = layer_children w k).
Proof.
  intros Hne Hnd Hc H r w'. subst w' r.
  rewrite (sendToBack_run s w L Hne (fun i Hi => proj1 (H i Hi))). cbn [fst snd].
  split; [reflexivity|]. split; [reflexivity|].
  destruct (sendToBack_fold (rev (_sortItemsByZIndex w (_items s)))) with (w := w) (L := L)
    as (E & _ & O).
  { apply NoDup_rev.
    eapply Permutation_NoDup; [symmetry; apply sort_perm | exact Hnd]. }
  { intros i Hi. apply in_rev in Hi. apply H.
    eapply Permutation_in; [apply sort_perm | exact Hi]. }
  split; [|exact O].
  rewrite E, rev_involutive.
  f_equal; [exact (sort_is_filter w L (_items s) Hnd Hc H)|].
  apply filter_ext. intros j. f_equal. apply eq_true_iff_eq.
  rewrite !mem_In. split; intros Hj.
  - apply in_rev in Hj. eapply Permutation_in; [apply sort_perm | exact Hj].
  - apply in_rev. rewrite rev_involutive.
    eapply Permutation_in; [symmetry; apply sort_perm | exact Hj].
Qed.

Lemma sendToBack_one_layer_witness :
  let s := Examples.selection_of [5; 1] (mkRect 0 0 10 10) in
  layer_children (snd (snd (Selection.sendToBack (s, Examples.scene5)))) 0 =
  [1; 5] ++ [4; 2; 3].
Proof.
  intros s.
  apply (sendToBack_one_layer s Examples.scene5 0).
  - discriminate.
  - repeat constructor; cbn; intuition lia.
  - cbn. repeat constructor; cbn; intuition lia.
  - cbn. intros i [<-|[<-|[]]]; split; auto 6.
Defined.

(** ** moveForwards on a selection in one layer *)

Lemma moved_forwards_perm sel l : Permutation (moved_forwards sel l) l.
Proof.
  induction l as [|x t IH]; cbn; [reflexivity|].
  destruct (mem x sel); [|now apply perm_skip].
  destruct (moved_forwards sel t) as [|y r].
  - apply Permutation_nil in IH. now subst.
  - destruct (mem y sel); [now apply perm_skip|].
    rewrite perm_swap. now apply perm_skip.
Qed.

Lemma forward_step_children sel w L h x rest :
  item_layer w x = Some L ->
  layer_children w L = h ++ x :: rest ->
  NoDup (layer_children w L) ->
  (forall y, In y (layer_children w L) -> item_layer w y = Some L) ->
  let w' := forward_step sel x w in
  layer_children w' L =
    h ++ match rest with
         | y :: r => if mem y sel then x :: y :: r else y :: x :: r
         | [] => [x]
         end
  /\ item_layer w' = item_layer w
  /\ (forall k, k <> L -> layer_children w' k = layer_children w k).
Proof.
  intros Hx Hch Hnd Hwf. cbv zeta.
  unfold forward_step, nextSibling, index. rewrite Hx, Hch.
  rewrite Hch in Hnd.
  pose proof (NoDup_middle x h rest Hnd) as [Hx1 Hx2].
  rewrite next_in_middle by assumption.
  destruct rest as [|y r]; cbn [nth_error]; [now rewrite Hch|].
  destruct (mem y sel); cbn [negb]; [now rewrite Hch|].
  assert (Hy : item_layer w y = Some L).
  { apply Hwf. rewrite Hch. apply in_or_app. right. right. now left. }
  unfold insertAbove, detach. rewrite Hy, Hx. cbn.
  rewrite Nat.eqb_refl, Hch.
  rewrite without_middle by (intros H; apply in_app_or in H as [H|H]; tauto).
  assert (Hy1 : ~ In y h).
  { apply NoDup_remove_1 in Hnd. now apply NoDup_middle in Hnd. }
  rewrite put_after_middle by assumption.
  split; [reflexivity|]. split; [reflexivity|].
  intros k Hk. now destruct (Nat.eqb_spec k L).
Qed.

Lemma forward_fold sel w L t :
  forall h,
    layer_children w L = h ++ t ->
    NoDup (h ++ t) ->
    (forall y, In y (h ++ t) -> item_layer w y = Some L) ->
    let w' := fold_left (fun w i => forward_step sel i w)
                        (rev (filter (fun i => mem i sel) t)) w in
    layer_children w' L = h ++ moved_forwards sel t
    /\ item_layer w' = item_layer w
    /\ (forall k, k <> L -> layer_children w' k = layer_children w k).
Proof.
  induction t as [|x t' IH]; intros h Hch Hnd Hwf; cbv zeta.
  - cbn. now rewrite Hch.
  - assert (E : h ++ x :: t' = (h ++ [x]) ++ t') by now rewrite <- app_assoc.
    rewrite E in Hch, Hnd, Hwf.
    destruct (IH (h ++ [x]) Hch Hnd Hwf) as (E1 & L1 & O1).
    cbn [filter moved_forwards]. destruct (mem x sel) eqn:Ex.
    + cbn [rev]. rewrite fold_left_app. cbn [fold_left].
      set (w1 := fold_left _ (rev (filter _ t')) w) in *.
      rewrite <- app_assoc in E1. cbn [app] in E1.
      assert (Hp : Permutation (h ++ x :: moved_forwards sel t') ((h ++ [x]) ++ t')).
      { rewrite <- app_assoc. cbn [app].
        apply Permutation_app_head, perm_skip, moved_forwards_perm. }
      destruct (forward_step_children sel w1 L h x (moved_forwards sel t'))
        as (E2 & L2 & O2).
      * rewrite L1. apply Hwf. apply in_or_app. left. apply in_or_app. right. now left.
      * exact E1.
      * rewrite E1. eapply Permutation_NoDup; [symmetry; exact Hp | exact Hnd].
      * intros y Hy. rewrite L1. apply Hwf. rewrite E1 in Hy.
        eapply Permutation_in; [exact Hp | exact Hy].
      * split; [exact E2|]. split; [now rewrite L2|].
        intros k Hk. now rewrite O2, O1.
    + rewrite <- app_assoc in E1. cbn [app] in E1. now split.
Qed.

Lemma moveForwards_run s w L :
  _items s <> [] ->
  (forall i, In i (_items s) -> item_layer w i = Some L) ->
  moveForwards (s, w) =
  (Return tt,
   (s, fold_left (fun w i => forward_step (_items s) i w)
                 (rev (_sortItemsByZIndex w (_items s))) w)).
Proof.
  intros Hne Hl. unfold moveForwards.
  rewrite (forEach_layer_run _ s w [_items s] (sortItemsByLayer_one w L _ Hne Hl)).
  cbn [forEach]. unfold bind at 1. unfold bind at 1, world at 1. cbn [fst snd].
  now rewrite forEach_forward.
Qed.

Lemma moveForwards_children s w L :
  _items s <> [] ->
  NoDup (_items s) ->
  NoDup (layer_children w L) ->
  (forall i, In i (_items s) -> item_layer w i = Some L) ->
  (forall i, item_layer w i = Some L <-> In i (layer_children w L)) ->
  let r := moveForwards (s, w) in
  fst r = Return tt
  /\ fst (snd r) = s
  /\ layer_children (snd (snd r)) L = moved_forwards (_items s) (layer_children w L)
  /\ item_layer (snd (snd r)) = item_layer w
  /\ (forall k, k <> L -> layer_children (snd (snd r)) k = layer_children w k).
Proof.
  intros Hne Hnd Hc Hl Hwf r. subst r.
  rewrite (moveForwards_run s w L Hne Hl). cbn [fst snd].
  split; [reflexivity|]. split; [reflexivity|].
  rewrite (sort_is_filter w L (_items s) Hnd Hc)
    by (intros i Hi; split; [now apply Hl | now apply Hwf, Hl]).
  apply (forward_fold (_items s) w L (layer_children w L) []).
  - reflexivity.
  - exact Hc.
  - intros y Hy. now apply Hwf.
Qed.

Lemma moved_forwards_selected sel l :
  filter (fun i => mem i sel) (moved_forwards sel l) = filter (fun i => mem i sel) l.
Proof.
  induction l as [|x t IH]; cbn; [reflexivity|].
  destruct (mem x sel) eqn:Ex; [|cbn; now rewrite Ex, IH].
  destruct (moved_forwards sel t) as [|y r].
  - cbn in *. now rewrite Ex, <- IH.
  - destruct (mem y sel) eqn:Ey; cbn in *; rewrite ?Ex, ?Ey in *; now rewrite <- IH.
Qed.

Lemma moved_forwards_unselected sel l :
  filter (fun i => negb (mem i sel)) (moved_forwards sel l) =
  filter (fun i => negb (mem i sel)) l.
Proof.
  induction l as [|x t IH]; cbn; [reflexivity|].
  destruct (mem x sel) eqn:Ex; [|cbn; now rewrite Ex, IH].
  destruct (moved_forwards sel t) as [|y r].
  - cbn in *. now rewrite Ex, <- IH.
  - destruct (mem y sel) eqn:Ey; cbn in *; rewrite ?Ex, ?Ey in *; now rewrite <- IH.
Qed.

Lemma moved_forwards_head sel l :
  match moved_forwards sel l with
  | y :: _ => mem y sel
  | [] => true
  end = all_selected sel l.
Proof.
  unfold all_selected. induction l as [|x t IH]; cbn; [reflexivity|].
  destruct (mem x sel) eqn:Ex; cbn; [|exact Ex].
  rewrite <- IH.
  destruct (moved_forwards sel t) as [|y r]; [exact Ex|].
  destruct (mem y sel) eqn:Ey; congruence.
Qed.

Lemma moved_forwards_index sel l x :
  NoDup l -> In x l -> mem x sel = true ->
  index_in x (moved_forwards sel l) =
  if all_selected sel (skipn (S (index_in x l)) l)
  then index_in x l
  else S (index_in x l).
Proof.
  induction l as [|y t IH]; intros Hnd Hin Hx; [contradiction|].
  apply NoDup_cons_iff in Hnd as [Hy Hnd].
  cbn [index_in moved_forwards]. destruct (Nat.eqb_spec x y) as [->|Hxy].
  - cbn [skipn]. rewrite Hx. rewrite <- moved_forwards_head.
    pose proof (moved_forwards_perm sel t) as HP.
    destruct (moved_forwards sel t) as [|z r]; [cbn; now rewrite Nat.eqb_refl|].
    destruct (mem z sel); cbn; [now rewrite Nat.eqb_refl|].
    destruct (Nat.eqb_spec y z) as [->|_]; [|now rewrite Nat.eqb_refl].
    exfalso. apply Hy. eapply Permutation_in; [exact HP | now left].
  - destruct Hin as [E|Hin]; [congruence|].
    change (skipn (S (S (index_in x t))) (y :: t)) with (skipn (S (index_in x t)) t).
    specialize (IH Hnd Hin Hx).
    assert (Hgoal : forall l', index_in x l' = S (index_in x (moved_forwards sel t)) ->
              index_in x l' =
              if all_selected sel (skipn (S (index_in x t)) t)
              then S (index_in x t) else S (S (index_in x t))).
    { intros l' ->. rewrite IH. now destruct (all_selected _ _). }
    apply Hgoal.
    destruct (mem y sel) eqn:Ey.
    + pose proof (moved_forwards_perm sel t) as HP.
      destruct (moved_forwards sel t) as [|z r].
      * apply Permutation_nil in HP. subst t. contradiction.
      * destruct (mem z sel) eqn:Ez; cbn.
        -- now destruct (Nat.eqb_spec x y).
        -- destruct (Nat.eqb_spec x z) as [->|_]; [congruence|].
           now destruct (Nat.eqb_spec x y).
    + cbn. now destruct (Nat.eqb_spec x y).
Qed.

(** X7. For a selection without repeated items, all in one well-formed
    layer without repeated children, [moveForwards()] moves every selected
    item exactly one step to the front, except the selected items that have
    only selected items in front of them: these keep their index. *)
Theorem moveForwards_one_step
    (s : Selection) (w : World) (L : nat) (a : Item) :
  NoDup (_items s) ->
  NoDup (layer_children w L) ->
  (forall i, In i (_items s) -> item_layer w i = Some L) ->
  (forall i, item_layer w i = Some L <-> In i (layer_children w L)) ->
  In a (_items s) ->
  let r := moveForwards (s, w) in
  let w' := snd (snd r) in
  fst r = Return tt
  /\ index w' a =
     if all_selected (_items s) (skipn (S (index w a)) (layer_children w L))
     then index w a
     else S (index w a).
Proof.
  intros Hnd Hc Hl Hwf Ha r w'. subst w' r.
  assert (Hne : _items s <> []) by (intros E; rewrite E in Ha; contradiction).
  destruct (moveForwards_children s w L Hne Hnd Hc Hl Hwf) as (Er & _ & E & Li & _).
  split; [exact Er|].
  unfold index. rewrite Li, (Hl a Ha), E.
  apply moved_forwards_index; [exact Hc | now apply Hwf, Hl | now apply mem_In].
Qed.

Lemma moveForwards_one_step_witness :
  let s := Examples.selection_of [1; 2] (mkRect 0 0 10 10) in
  index (snd (snd (moveForwards (s, Examples.scene5)))) 1 = 2.
Proof.
  intros s.
  apply (moveForwards_one_step s Examples.scene5 0 1).
  - repeat constructor; cbn; intuition lia.
  - cbn. repeat constructor; cbn; intuition lia.
  - cbn. intros i [<-|[<-|[]]]; reflexivity.
  - intros i. cbn. split.
    + destruct i as [|[|[|[|[|[|i]]]]]]; cbn; intros H; try discriminate; auto 6.
    + intros [<-|[<-|[<-|[<-|[<-|[]]]]]]; reflexivity.
  - now left.
Defined.

(** X8. For a selection without repeated items, all in one well-formed
    layer without repeated children, [moveForwards()] only rearranges the
    children of the layer: no child is lost or added, the selected items
    keep their order among themselves, and so do the items that are not
    selected; the other layers keep their children. *)
Theorem moveForwards_keeps_orders (s : Selection) (w : World) (L : nat) :
  _items s <> [] ->
  NoDup (_items s) ->
  NoDup (layer_children w L) ->
  (forall i, In i (_items s) -> item_layer w i = Some L) ->
  (forall i, item_layer w i = Some L <-> In i (layer_children w L)) ->
  let w' := snd (snd (moveForwards (s, w))) in
  Permutation (layer_children w' L) (layer_children w L)
  /\ filter (fun i => mem i (_items s)) (layer_children w' L) =
     filter (fun i => mem i (_items s)) (layer_children w L)
  /\ filter (fun i => negb (mem i (_items s))) (layer_children w' L) =
     filter (fun i => negb (mem i (_items s))) (layer_children w L)
  /\ (forall k, k <> L -> layer_children w' k = layer_children w k).
Proof.
  intros Hne Hnd Hc Hl Hwf w'. subst w'.
  destruct (moveForwards_children s w L Hne Hnd Hc Hl Hwf) as (_ & _ & E & _ & O).
  rewrite E. split; [apply moved_forwards_perm|].
  split; [apply moved_forwards_selected|].
  split; [apply moved_forwards_unselected | exact O].
Qed.

Lemma moveForwards_keeps_orders_witness :
  let s := Examples.selection_of [1; 2] (mkRect 0 0 10 10) in
  Permutation (layer_children (snd (snd (moveForwards (s, Examples.scene5)))) 0)
              (layer_children Examples.scene5 0).
Proof.
  intros s.
  apply (moveForwards_keeps_orders s Examples.scene5 0).
  - discriminate.
  - repeat constructor; cbn; intuition lia.
  - cbn. repeat constructor; cbn; intuition lia.
  - cbn. intros i [<-|[<-|[]]]; reflexivity.
  - intros i. cbn. split.
    + destruct i as [|[|[|[|[|[|i]]]]]]; cbn; intros H; try discriminate; auto 6.
    + intros [<-|[<-|[<-|[<-|[<-|[]]]]]]; reflexivity.
Defined.

(** ** moveBackwards on a selection in one layer *)

Lemma put_before_middle t i l1 l2 :
  ~ In t l1 -> put_before t i (l1 ++ t :: l2) = l1 ++ i :: t :: l2.
Proof.
  induction l1 as [|j l IH]; cbn; intros H.
  - now rewrite Nat.eqb_refl.
  - destruct (Nat.eqb_spec j t) as [->|Hjt].
    + exfalso. apply H. now left.
    + f_equal. apply IH. intros Hin. apply H. now right.
Qed.

Lemma forEach_backward l s w :
  forEach l
    (fun item =>
       bind this (fun s =>
       bind world (fun w =>
       match previousSibling w item with
       | Some sibling =>
           if negb (mem sibling (_items s))
           then update_world (insertBelow item sibling)
           else ret tt
       | None => ret tt
       end))) (s, w) =
  (Return tt, (s, fold_left (fun w item => backward_step (_items s) item w) l w)).
Proof.
  revert w. induction l as [|x t IH]; intros w; [reflexivity|].
  cbn [forEach fold_left]. unfold bind at 1.
  unfold bind at 1, this at 1. cbn [fst snd].
  unfold bind at 1, world at 1. cbn [fst snd].
  unfold backward_step at 2.
  destruct (previousSibling w x) as [nb|]; [|apply IH].
  destruct (negb (mem nb (_items s))); apply IH.
Qed.

Lemma backward_step_children sel w L g x t :
  item_layer w x = Some L ->
  layer_children w L = g ++ x :: t ->
  NoDup (layer_children w L) ->
  (forall y, In y (layer_children w L) -> item_layer w y = Some L) ->
  let w' := backward_step sel x w in
  layer_children w' L =
    match rev g with
    | y :: r => if mem y sel then rev r ++ y :: x :: t else rev r ++ x :: y :: t
    | [] => x :: t
    end
  /\ item_layer w' = item_layer w
  /\ (forall k, k <> L -> layer_children w' k = layer_children w k).
Proof.
  intros Hx Hch Hnd Hwf. cbv zeta.
  unfold backward_step, previousSibling, index. rewrite Hx, Hch.
  rewrite Hch in Hnd.
  pose proof (NoDup_middle x g t Hnd) as [Hx1 Hx2].
  rewrite index_in_middle by assumption.
  destruct (rev g) as [|y r] eqn:Eg.
  - apply (f_equal (@rev Item)) in Eg. rewrite rev_involutive in Eg. subst g.
    cbn. now rewrite Hch.
  - apply (f_equal (@rev Item)) in Eg. rewrite rev_involutive in Eg. cbn in Eg.
    subst g. rewrite length_app. cbn [List.length].
    replace (List.length (rev r) + 1) with (S (List.length (rev r))) by lia.
    rewrite <- app_assoc. cbn [app].
    rewrite nth_error_app2 by lia. rewrite Nat.sub_diag. cbn [nth_error].
    rewrite <- app_assoc in Hch, Hnd. cbn [app] in Hch, Hnd.
    destruct (mem y sel); cbn [negb]; [now rewrite Hch|].
    assert (Hy : item_layer w y = Some L).
    { apply Hwf. rewrite Hch. apply in_or_app. right. now left. }
    pose proof (NoDup_middle y (rev r) _ Hnd) as [Hy1 Hy2].
    unfold insertBelow, detach. rewrite Hy, Hx. cbn.
    rewrite Nat.eqb_refl, Hch.
    change (rev r ++ y :: x :: t) with (rev r ++ [y] ++ x :: t).
    rewrite app_assoc, without_middle.
    2:{ intros H. apply in_app_or in H as [H|H]; [exact (Hx1 H) | exact (Hx2 H)]. }
    rewrite <- app_assoc. cbn [app].
    rewrite put_before_middle by assumption.
    split; [reflexivity|]. split; [reflexivity|].
    intros k Hk. now destruct (Nat.eqb_spec k L).
Qed.

Lemma moved_backwards_perm sel l : Permutation (moved_backwards sel l) l.
Proof.
  unfold moved_backwards.
  rewrite <- Permutation_rev, moved_forwards_perm. symmetry. apply Permutation_rev.
Qed.

Lemma moved_backwards_snoc sel h x :
  moved_backwards sel (h ++ [x]) =
  if mem x sel
  then match rev (moved_backwards sel h) with
       | y :: r => if mem y sel then rev r ++ [y; x] else rev r ++ [x; y]
       | [] => [x]
       end
  else moved_backwards sel h ++ [x].
Proof.
  unfold moved_backwards. rewrite rev_app_distr. cbn [rev app moved_forwards].
  rewrite rev_involutive.
  destruct (mem x sel); [|reflexivity].
  destruct (moved_forwards sel (rev h)) as [|y r]; [reflexivity|].
  destruct (mem y sel); cbn [rev]; now rewrite <- !app_assoc.
Qed.

Lemma backward_fold sel w L h :
  forall t,
    layer_children w L = h ++ t ->
    NoDup (h ++ t) ->
    (forall y, In y (h ++ t) -> item_layer w y = Some L) ->
    let w' := fold_left (fun w i => backward_step sel i w)
                        (filter (fun i => mem i sel) h) w in
    layer_children w' L = moved_backwards sel h ++ t
    /\ item_layer w' = item_layer w
    /\ (forall k, k <> L -> layer_children w' k = layer_children w k).
Proof.
  induction h as [|x h' IH] using rev_ind; intros t Hch Hnd Hwf; cbv zeta.
  - cbn. now rewrite Hch.
  - rewrite <- app_assoc in Hch, Hnd, Hwf. cbn [app] in Hch, Hnd, Hwf.
    destruct (IH (x :: t) Hch Hnd Hwf) as (E1 & L1 & O1).
    rewrite filter_app, moved_backwards_snoc. cbn [filter].
    destruct (mem x sel) eqn:Ex.
    + rewrite fold_left_app. cbn [fold_left].
      set (w1 := fold_left _ (filter _ h') w) in *.
      assert (Hp : Permutation (moved_backwards sel h' ++ x :: t) (h' ++ x :: t)).
      { apply Permutation_app_tail, moved_backwards_perm. }
      destruct (backward_step_children sel w1 L (moved_backwards sel h') x t)
        as (E2 & L2 & O2).
      * rewrite L1. apply Hwf. apply in_or_app. right. now left.
      * exact E1.
      * rewrite E1. eapply Permutation_NoDup; [symmetry; exact Hp | exact Hnd].
      * intros y Hy. rewrite L1. apply Hwf. rewrite E1 in Hy.
        eapply Permutation_in; [exact Hp | exact Hy].
      * split; [|split; [now rewrite L2 | intros k Hk; now rewrite O2, O1]].
        rewrite E2. destruct (rev (moved_backwards sel h')) as [|y r]; [reflexivity|].
        destruct (mem y sel); now rewrite <- app_assoc.
    + rewrite app_nil_r, <- app_assoc. cbn [app]. now split.
Qed.

Lemma moveBackwards_run s w L :
  _items s <> [] ->
  (forall i, In i (_items s) -> item_layer w i = Some L) ->
  moveBackwards (s, w) =
  (Return tt,
   (s, fold_left (fun w i => backward_step (_items s) i w)
                 (_sortItemsByZIndex w (_items s)) w)).
Proof.
  intros Hne Hl. unfold moveBackwards.
  rewrite (forEach_layer_run _ s w [_items s] (sortItemsByLayer_one w L _ Hne Hl)).
  cbn [forEach]. unfold bind at 1. unfold bind at 1, world at 1. cbn [fst snd].
  now rewrite forEach_backward.
Qed.

Lemma moveBackwards_children s w L :
  _items s <> [] ->
  NoDup (_items s) ->
  NoDup (layer_children w L) ->
  (forall i, In i (_items s) -> item_layer w i = Some L) ->
  (forall i, item_layer w i = Some L <-> In i (layer_children w L)) ->
  let r := moveBackwards (s, w) in
  fst r = Return tt
  /\ fst (snd r) = s
  /\ layer_children (snd (snd r)) L = moved_backwards (_items s) (layer_children w L)
  /\ item_layer (snd (snd r)) = item_layer w
  /\ (forall k, k <> L -> layer_children (snd (snd r)) k = layer_children w k).
Proof.
  intros Hne Hnd Hc Hl Hwf r. subst r.
  rewrite (moveBackwards_run s w L Hne Hl). cbn [fst snd].
  split; [reflexivity|]. split; [reflexivity|].
  rewrite (sort_is_filter w L (_items s) Hnd Hc)
    by (intros i Hi; split; [now apply Hl | now apply Hwf, Hl]).
  pose proof (backward_fold (_items s) w L (layer_children w L) []) as H.
  rewrite !app_nil_r in H. apply H; [reflexivity | exact Hc|].
  intros y Hy. now apply Hwf.
Qed.

Lemma all_selected_rev sel l : all_selected sel (rev l) = all_selected sel l.
Proof.
  unfold all_selected. induction l as [|x t IH]; [reflexivity|].
  cbn. rewrite forallb_app, IH. cbn. rewrite andb_true_r. apply andb_comm.
Qed.

Lemma moved_backwards_index sel l1 x l2 :
  NoDup (l1 ++ x :: l2) -> mem x sel = true ->
  index_in x (moved_backwards sel (l1 ++ x :: l2)) =
  if all_selected sel l1 then List.length l1 else pred (List.length l1).
Proof.
  intros Hnd Hx. unfold moved_backwards.
  set (l := l1 ++ x :: l2) in *.
  assert (Er : rev l = rev l2 ++ x :: rev l1).
  { unfold l. rewrite rev_app_distr. cbn. now rewrite <- app_assoc. }
  pose proof (NoDup_middle x l1 l2 Hnd) as [H1 H2].
  assert (Hndr : NoDup (rev l)) by now apply NoDup_rev.
  assert (Hxr : ~ In x (rev l2)) by now rewrite <- in_rev.
  pose proof (moved_forwards_index sel (rev l) x Hndr) as Hi.
  rewrite Er in Hi at 1 2 3 4. rewrite index_in_middle in Hi by assumption.
  specialize (Hi (in_elt x _ _) Hx).
  assert (Esk : skipn (S (List.length (rev l2))) (rev l2 ++ x :: rev l1) = rev l1).
  { rewrite skipn_app, skipn_all2 by lia.
    replace (S (List.length (rev l2)) - List.length (rev l2)) with 1 by lia.
    reflexivity. }
  rewrite Esk, all_selected_rev in Hi. rewrite <- Er in Hi.
  set (m := moved_forwards sel (rev l)) in *.
  assert (Hpm : Permutation m l).
  { unfold m. rewrite moved_forwards_perm. symmetry. apply Permutation_rev. }
  assert (Hndm : NoDup m) by (eapply Permutation_NoDup; [symmetry; exact Hpm | exact Hnd]).
  assert (Hxm : In x m).
  { eapply Permutation_in; [symmetry; exact Hpm|]. unfold l. apply in_elt. }
  destruct (in_split x m Hxm) as (m1 & m2 & Em).
  rewrite Em in Hndm, Hi |- *.
  pose proof (NoDup_middle x m1 m2 Hndm) as [Hm1 Hm2].
  rewrite index_in_middle in Hi by assumption.
  rewrite rev_app_distr. cbn [rev]. rewrite <- app_assoc. cbn [app].
  rewrite index_in_middle by now rewrite <- in_rev.
  assert (Hlen : List.length m1 + S (List.length m2) =
                 List.length l1 + S (List.length l2)).
  { apply Permutation_length in Hpm. rewrite Em in Hpm. unfold l in Hpm.
    rewrite !length_app in Hpm. exact Hpm. }
  assert (Eidx : index_in x (rev l) = List.length l2).
  { rewrite Er, index_in_middle by assumption. apply length_rev. }
  rewrite Eidx in Hi. rewrite !length_rev.
  destruct (all_selected sel l1); lia.
Qed.

(** X9. For a selection without repeated items, all in one well-formed
    layer without repeated children, [moveBackwards()] moves every selected
    item exactly one step to the back, except the selected items that have
    only selected items behind them: these keep their index. *)
Theorem moveBackwards_one_step
    (s : Selection) (w : World) (L : nat) (a : Item) :
  NoDup (_items s) ->
  NoDup (layer_children w L) ->
  (forall i, In i (_items s) -> item_layer w i = Some L) ->
  (forall i, item_layer w i = Some L <-> In i (layer_children w L)) ->
  In a (_items s) ->
  let r := moveBackwards (s, w) in
  let w' := snd (snd r) in
  fst r = Return tt
  /\ index w' a =
     if all_selected (_items s) (firstn (index w a) (layer_children w L))
     then index w a
     else pred (index w a).
Proof.
  intros Hnd Hc Hl Hwf Ha r w'. subst w' r.
  assert (Hne : _items s <> []) by (intros E; rewrite E in Ha; contradiction).
  destruct (moveBackwards_children s w L Hne Hnd Hc Hl Hwf) as (Er & _ & E & Li & _).
  split; [exact Er|].
  unfold index. rewrite Li, (Hl a Ha), E.
  assert (Hin : In a (layer_children w L)) by now apply Hwf, Hl.
  destruct (in_split a _ Hin) as (l1 & l2 & El). rewrite El in Hc |- *.
  pose proof (NoDup_middle a l1 l2 Hc) as [H1 _].
  rewrite (index_in_middle a l1 l2 H1), firstn_app, firstn_all, Nat.sub_diag.
  cbn [firstn]. rewrite app_nil_r.
  apply moved_backwards_index; [exact Hc | now apply mem_In].
Qed.

Lemma moveBackwards_one_step_witness :
  let s := Examples.selection_of [2; 3] (mkRect 0 0 10 10) in
  index (snd (snd (moveBackwards (s, Examples.scene5)))) 3 = 2.
Proof.
  intros s.
  apply (moveBackwards_one_step s Examples.scene5 0 3).
  - repeat constructor; cbn; intuition lia.
  - cbn. repeat constructor; cbn; intuition lia.
  - cbn. intros i [<-|[<-|[]]]; reflexivity.
  - intros i. cbn. split.
    + destruct i as [|[|[|[|[|[|i]]]]]]; cbn; intros H; try discriminate; auto 6.
    + intros [<-|[<-|[<-|[<-|[<-|[]]]]]]; reflexivity.
  - right. now left.
Defined.

Lemma filter_moved_backwards (f : Item -> bool) sel l :
  filter f (moved_forwards sel (rev l)) = filter f (rev l) ->
  filter f (moved_backwards sel l) = filter f l.
Proof.
  intros H. unfold moved_backwards.
  rewrite filter_rev, H, filter_rev. apply rev_involutive.
Qed.

(** X10. For a selection without repeated items, all in one well-formed
    layer without repeated children, [moveBackwards()] only rearranges the
    children of the layer: no child is lost or added, the selected items
    keep their order among themselves, and so do the items that are not
    selected; the other layers keep their children. *)
Theorem moveBackwards_keeps_orders (s : Selection) (w : World) (L : nat) :
  _items s <> [] ->
  NoDup (_items s) ->
  NoDup (layer_children w L) ->
  (forall i, In i (_items s) -> item_layer w i = Some L) ->
  (forall i, item_layer w i = Some L <-> In i (layer_children w L)) ->
  let w' := snd (snd (moveBackwards (s, w))) in
  Permutation (layer_children w' L) (layer_children w L)
  /\ filter (fun i => mem i (_items s)) (layer_children w' L) =
     filter (fun i => mem i (_items s)) (layer_children w L)
  /\ filter (fun i => negb (mem i (_items s))) (layer_children w' L) =
     filter (fun i => negb (mem i (_items s))) (layer_children w L)
  /\ (forall k, k <> L -> layer_children w' k = layer_children w k).
Proof.
  intros Hne Hnd Hc Hl Hwf w'. subst w'.
  destruct (moveBackwards_children s w L Hne Hnd Hc Hl Hwf) as (_ & _ & E & _ & O).
  rewrite E. split; [apply moved_backwards_perm|].
  split; [apply filter_moved_backwards, moved_forwards_selected|].
  split; [apply filter_moved_backwards, moved_forwards_unselected | exact O].
Qed.

Lemma moveBackwards_keeps_orders_witness :
  let s := Examples.selection_of [2; 3] (mkRect 0 0 10 10) in
  Permutation (layer_children (snd (snd (moveBackwards (s, Examples.scene5)))) 0)
              (layer_children Examples.scene5 0).
Proof.
  intros s.
  apply (moveBackwards_keeps_orders s Examples.scene5 0).
  - discriminate.
  - repeat constructor; cbn; intuition lia.
  - cbn. repeat constructor; cbn; intuition lia.
  - cbn. intros i [<-|[<-|[]]]; reflexivity.
  - intros i. cbn. split.
    + destruct i as [|[|[|[|[|[|i]]]]]]; cbn; intros H; try discriminate; auto 6.
    + intros [<-|[<-|[<-|[<-|[<-|[]]]]]]; reflexivity.
Defined.

(** ** The ordering methods at the edges *)

Lemma forEach_layer_empty visit s w :
  _items s = [] -> forEach_layer visit (s, w) = (Return tt, (s, w)).
Proof.
  intros H. unfold forEach_layer, bind, this, world. cbn [fst snd].
  now rewrite H.
Qed.

Lemma forEach_layer_throws visit s w :
  (exists i, In i (_items s) /\ item_layer w i = None) ->
  forEach_layer visit (s, w) =
  (Throw (TypeError "Cannot read properties of null (reading 'id')"), (s, w)).
Proof.
  intros H. unfold forEach_layer, bind, this, world. cbn [fst snd].
  unfold _sortItemsByLayer. now rewrite (group_by_layer_throws w (_items s) H).
Qed.

(** X11. On an empty selection [moveForwards()], [moveBackwards()],
    [bringToFront()] and [sendToBack()] return and change nothing. *)
Theorem ordering_on_empty_selection (s : Selection) (w : World) :
  _items s = [] ->
  moveForwards (s, w) = (Return tt, (s, w))
  /\ moveBackwards (s, w) = (Return tt, (s, w))
  /\ Selection.bringToFront (s, w) = (Return tt, (s, w))
  /\ Selection.sendToBack (s, w) = (Return tt, (s, w)).
Proof.
  intros H. repeat split; now apply forEach_layer_empty.
Qed.

Lemma ordering_on_empty_selection_witness :
  let st := snd (new_Selection None Examples.scene) in
  moveForwards st = (Return tt, st).
Proof.
  intros st.
  apply (proj1 (ordering_on_empty_selection (fst st) (snd st) eq_refl)).
Defined.

(** X12. When one of the selected items has no layer, [moveForwards()],
    [moveBackwards()], [bringToFront()] and [sendToBack()] throw a
    TypeError before they move anything: no item changes place, also in the
    layers of the other selected items. *)
Theorem ordering_throws_without_layer (s : Selection) (w : World) :
  (exists i, In i (_items s) /\ item_layer w i = None) ->
  let e := TypeError "Cannot read properties of null (reading 'id')" in
  moveForwards (s, w) = (Throw e, (s, w))
  /\ moveBackwards (s, w) = (Throw e, (s, w))
  /\ Selection.bringToFront (s, w) = (Throw e, (s, w))
  /\ Selection.sendToBack (s, w) = (Throw e, (s, w)).
Proof.
  intros H e. repeat split; now apply forEach_layer_throws.
Qed.

Lemma ordering_throws_without_layer_witness :
  let s := Examples.selection_of [1; 7] (mkRect 0 0 10 10) in
  Selection.bringToFront (s, Examples.scene) =
  (Throw (TypeError "Cannot read properties of null (reading 'id')"),
   (s, Examples.scene)).
Proof.
  intros s.
  apply (ordering_throws_without_layer s Examples.scene).
  exists 7. split; [right; now left | reflexivity].
Defined.

(** ** Path attributes of a selection that is not empty *)

Lemma set_attr_fold name v l :
  forall w,
    let w' := fold_left (fun w i => set_attr i name v w) l w in
    (forall j n, item_attr w' j n =
                 if mem j l && String.eqb n name then v else item_attr w j n)
    /\ trace w' = trace w
    /\ layer_children w' = layer_children w
    /\ item_layer w' = item_layer w
    /\ item_bounds w' = item_bounds w
    /\ next_gui w' = next_gui w.
Proof.
  induction l as [|i t IH]; intros w; cbv zeta; cbn [fold_left].
  - repeat split.
  - destruct (IH (set_attr i name v w)) as (A & T & C & Li & B & N).
    split; [|now repeat split].
    intros j n. rewrite A. unfold set_attr. cbn [item_attr].
    change (mem j (i :: t)) with (Nat.eqb j i || mem j t).
    destruct (Nat.eqb j i), (mem j t), (String.eqb n name); reflexivity.
Qed.

Lemma setPathAttrribute_run name v s w :
  setPathAttrribute name v (s, w) =
  (Return tt, (s, fold_left (fun w i => set_attr i name v w) (_items s) w)).
Proof.
  unfold setPathAttrribute, bind, this. cbn [fst snd].
  apply (forEach_update_world (fun i => set_attr i name v)).
Qed.

(** X13. Setting a path attribute on a selection that is not empty and
    reading it back returns the value that was set, without a diagnostic
    and without any further change; so it is for [fillColor],
    [strokeColor] and [strokeWidth]. *)
Theorem path_attribute_set_then_get
    (s : Selection) (w : World) (name : string) (v : attr) :
  _items s <> [] ->
  let st := snd (setPathAttrribute name v (s, w)) in
  getPathAttribute name st = (Return v, st)
  /\ fst (fillColor (snd (set_fillColor v (s, w)))) = Return v
  /\ fst (strokeColor (snd (set_strokeColor v (s, w)))) = Return v
  /\ fst (strokeWidth (snd (set_strokeWidth v (s, w)))) = Return v.
Proof.
  intros Hne.
  assert (G : forall n,
             getPathAttribute n (snd (setPathAttrribute n v (s, w))) =
             (Return v, snd (setPathAttrribute n v (s, w)))).
  { intros n. rewrite setPathAttrribute_run. cbn [snd].
    destruct (set_attr_fold n v (_items s) w) as (A & _).
    unfold getPathAttribute, bind, this, world, items. cbn [fst snd].
    destruct (_items s) as [|i t] eqn:Ei; [congruence|].
    cbn [List.length Nat.eqb nth_error]. unfold ret. cbn [fst snd].
    rewrite A. cbn. now rewrite Nat.eqb_refl, String.eqb_refl. }
  cbv zeta. split; [apply G|].
  unfold fillColor, strokeColor, strokeWidth,
    set_fillColor, set_strokeColor, set_strokeWidth.
  now rewrite !G.
Qed.

Lemma path_attribute_set_then_get_witness :
  let s := Examples.selection_of [2; 3] (mkRect 20 20 10 10) in
  fst (fillColor (snd (set_fillColor (attr_color "red") (s, Examples.scene)))) =
  Return (attr_color "red").
Proof.
  intros s.
  apply (path_attribute_set_then_get s Examples.scene "fillColor" (attr_color "red")).
  discriminate.
Defined.


(** ** Reading and replacing the transformation *)

Lemma negzero_eq n : is_negzero n = true -> n = neg_zero.
Proof.
  unfold is_negzero. destruct (Prim2SF n) as [[]| | |] eqn:E; try discriminate.
  intros _. now rewrite <- (SF2Prim_Prim2SF n), E.
Qed.

Lemma zero_eq n : is_zero n = true -> is_negzero n = false -> n = 0%float.
Proof.
  unfold is_zero, is_negzero. rewrite FloatAxioms.eqb_spec.
  change (Prim2SF 0) with (S754_zero false).
  destruct (Prim2SF n) as [[]|[]| |[] m e] eqn:E; try discriminate.
  intros _ _. now rewrite <- (SF2Prim_Prim2SF n), E.
Qed.

Lemma json_roundtrip_idem v : json_roundtrip (json_roundtrip v) = json_roundtrip v.
Proof.
  destruct v as [n|]; [|reflexivity]. unfold json_roundtrip at 2 3.
  destruct (is_finite n) eqn:F; [|reflexivity].
  destruct (is_zero n) eqn:Z; [reflexivity|]. unfold json_roundtrip. now rewrite F, Z.
Qed.

Lemma json_roundtrip_finite v : finite v -> json_roundtrip v = v.
Proof.
  intros (n & -> & F & N). unfold json_roundtrip. rewrite F.
  destruct (is_zero n) eqn:Z; [|reflexivity].
  now rewrite (zero_eq n Z N).
Qed.

Lemma json_roundtrip_not_finite n : is_finite n = false -> json_roundtrip (Num n) = Null.
Proof. intros F. unfold json_roundtrip. now rewrite F. Qed.

Lemma json_roundtrip_negzero n : is_negzero n = true -> json_roundtrip (Num n) = Num 0.
Proof. intros N. now rewrite (negzero_eq n N). Qed.

Lemma json_roundtrip_copied v : copied v (json_roundtrip v).
Proof.
  destruct v as [n|]; [|constructor]. unfold json_roundtrip.
  destruct (is_finite n) eqn:F; [|now constructor].
  destruct (is_zero n) eqn:Z; now constructor.
Qed.

Lemma json_copy_finite t : all_finite t -> Transform.json_copy t = t.
Proof.
  intros (H1 & H2 & H3 & H4 & H5 & H6 & H7). destruct t. cbn in *.
  unfold Transform.json_copy. cbn.
  now rewrite !json_roundtrip_finite by assumption.
Qed.

Lemma finite_number n : is_finite n = true -> is_negzero n = false -> finite (Num n).
Proof. intros F N. now exists n. Qed.

(** X15. The transformation getter hands out a JSON copy of the
    transformation held. Field by field: a finite number other than a
    zero is handed out as it is, a zero of either sign as [0], and NaN,
    [Infinity], [-Infinity] and [null] as [null]. Copying the result again
    changes nothing, and when every field is a finite number other than
    [-0] the result equals the transformation held. *)
Theorem transformation_getter_is_json_copy (s : Selection) :
  Forall2 copied (fields (_transformation s)) (fields (transformation s))
  /\ Forall2 (fun held got =>
                (held = Num nan \/ held = Num infinity \/ held = Num neg_infinity
                 \/ held = Null -> got = Null)
                /\ (held = Num neg_zero \/ held = Num 0%float -> got = Num 0%float)
                /\ (finite held -> got = held))
             (fields (_transformation s)) (fields (transformation s))
  /\ Transform.json_copy (transformation s) = transformation s
  /\ (all_finite (_transformation s) -> transformation s = _transformation s).
Proof.
  unfold transformation. split; [|split; [|split]].
  - unfold fields, Transform.json_copy. cbn.
    repeat (constructor; [apply json_roundtrip_copied|]). constructor.
  - unfold fields, Transform.json_copy. cbn.
    repeat (constructor;
            [split; [|split];
             [intros [->|[->|[->| ->]]]; reflexivity
             |intros [->| ->]; reflexivity
             |apply json_roundtrip_finite]|]).
    constructor.
  - unfold Transform.json_copy. cbn. now rewrite !json_roundtrip_idem.
  - apply json_copy_finite.
Qed.

Lemma transformation_getter_is_json_copy_witness :
  let s := Examples.selection_of [1] (mkRect 0 0 10 10) in
  transformation s = _transformation s.
Proof.
  intros s.
  apply (proj2 (proj2 (proj2 (transformation_getter_is_json_copy s)))).
  repeat split; apply finite_number; reflexivity.
Defined.

(** X16. On a selection that holds a GUI and whose transformation has a
    finite number other than [-0] in every field, [updateTransformation]
    replaces exactly the fields that its argument names and keeps the
    others; it calls [destroy()] on the GUI once, builds no GUI, leaves the
    items and the untransformed bounds alone, and then throws the
    TypeError of the missing [_create]. *)
Theorem updateTransformation_merges
    (s : Selection) (w : World) (g : nat) (p : Transform.Partial) :
  _gui s = Some g ->
  all_finite (_transformation s) ->
  let r := updateTransformation p (s, w) in
  let s' := fst (snd r) in
  let w' := snd (snd r) in
  fst r = Throw (TypeError "this._create is not a function")
  /\ _transformation s' = Transform.assign (_transformation s) p
  /\ _items s' = _items s
  /\ _untransformedBounds s' = _untransformedBounds s
  /\ _gui s' = Some g
  /\ trace w' = trace w ++ [SelectionGUI_destroy g]
  /\ next_gui w' = next_gui w.
Proof.
  intros Hg Hf r s' w'. subst s' w' r.
  rewrite (updateTransformation_run s w g p Hg). cbn [fst snd].
  unfold transformation. rewrite (json_copy_finite _ Hf). cbn.
  repeat split. exact Hg.
Qed.

Lemma updateTransformation_merges_witness :
  let s := Examples.selection_of [1] (mkRect 0 0 10 10) in
  let p := Transform.mkPartial None None None None (Some (Num 90)) None None in
  _transformation (fst (snd (updateTransformation p (s, Examples.scene)))) =
  Transform.assign (_transformation s) p.
Proof.
  intros s p.
  apply (updateTransformation_merges s Examples.scene 0 p).
  - reflexivity.
  - repeat split; apply finite_number; reflexivity.
Defined.

Lemma field_setter_run s w g p :
  _gui s = Some g ->
  transformation (fst (snd (updateTransformation p (s, w)))) =
  Transform.json_copy (Transform.assign (transformation s) p).
Proof.
  intros Hg. now rewrite (updateTransformation_run s w g p Hg).
Qed.

(** X17. On a selection that holds a GUI, after the [scaleX], [scaleY] or
    [rotation] setter has replaced the transformation, the getter of the
    same name returns the value that was set when it is a finite number
    other than [-0], [0] when it is [-0], and [null] when it is an
    infinity, NaN or [null]. *)
Theorem scale_rotation_set_then_get
    (s : Selection) (w : World) (g : nat) (v : value) :
  _gui s = Some g ->
  scaleX (fst (snd (set_scaleX v (s, w)))) = json_roundtrip v
  /\ scaleY (fst (snd (set_scaleY v (s, w)))) = json_roundtrip v
  /\ rotation (fst (snd (set_rotation v (s, w)))) = json_roundtrip v
  /\ (finite v -> json_roundtrip v = v)
  /\ (forall n, v = Num n -> is_negzero n = true -> json_roundtrip v = Num 0%float)
  /\ (forall n, v = Num n -> is_finite n = false -> json_roundtrip v = Null)
  /\ (v = Null -> json_roundtrip v = Null).
Proof.
  intros Hg. unfold scaleX, scaleY, rotation, set_scaleX, set_scaleY, set_rotation.
  rewrite !(field_setter_run s w g _ Hg). cbn.
  repeat split.
  - apply json_roundtrip_finite.
  - intros n -> N. now apply json_roundtrip_negzero.
  - intros n -> F. now apply json_roundtrip_not_finite.
  - now intros ->.
Qed.

Lemma scale_rotation_set_then_get_witness :
  let s := Examples.selection_of [1] (mkRect 0 0 10 10) in
  scaleX (fst (snd (set_scaleX (Num nan) (s, Examples.scene)))) = Null.
Proof.
  intros s.
  apply (proj1 (scale_rotation_set_then_get s Examples.scene 0 (Num nan) eq_refl)).
Defined.

(** ** Height, and width and height together *)

Lemma set_height_run s w g H :
  _gui s = Some g ->
  set_height H (s, w) =
  (Throw (TypeError "this._create is not a function"),
   (with_transformation
      (Transform.assign (transformation s)
         (Transform.mkPartial None None None
            (Some (Num (div (ToNumber (Transform.scaleY (transformation s)))
                            (div (height s) H))))
            None None None)) s,
    emit (SelectionGUI_destroy g) w)).
Proof.
  intros Hg. unfold set_height, bind, this. cbn [fst snd].
  now apply updateTransformation_run.
Qed.

Lemma axes_independent s w g W H :
  _gui s = Some g ->
  height (fst (snd (set_width W (s, w)))) = height s
  /\ width (fst (snd (set_height H (s, w)))) = width s
  /\ scaleY (fst (snd (set_width W (s, w)))) = scaleY s
  /\ scaleX (fst (snd (set_height H (s, w)))) = scaleX s.
Proof.
  intros Hg.
  rewrite (set_width_run s w g W Hg), (set_height_run s w g H Hg). cbn [fst snd].
  unfold height, width, scaleX, scaleY, transformation. cbn.
  now rewrite !json_roundtrip_idem.
Qed.

(** X18. On a selection that holds a GUI the height setter stores, as the
    new [scaleY], the [scaleY] it reads divided by the quotient of the
    current height and [H], and leaves the other fields as they are read;
    the height read afterwards is the height of the untransformed bounds
    times that scale as the transformation getter hands it back ([null],
    read as 0, when it is not finite). *)
Theorem set_height_then_height
    (s : Selection) (w : World) (g : nat) (H : number) :
  _gui s = Some g ->
  let s' := fst (snd (set_height H (s, w))) in
  let scale := ToNumber (scaleY s) in
  let scale' := div scale (div (height s) H) in
  _transformation s' =
    Transform.mkTransformation
      (Transform.x (transformation s)) (Transform.y (transformation s))
      (Transform.scaleX (transformation s)) (Num scale')
      (Transform.rotation (transformation s))
      (Transform.originX (transformation s)) (Transform.originY (transformation s))
  /\ scaleY s' = json_roundtrip (Num scale')
  /\ height s' =
     mul (Geometry.height (_untransformedBounds s))
         (ToNumber (json_roundtrip (Num scale'))).
Proof.
  intros Hg s' scale scale'. subst s' scale' scale.
  rewrite (set_height_run s w g H Hg). cbn [fst snd].
  unfold height, scaleY, transformation. cbn. repeat split.
Qed.

Lemma set_height_then_height_witness :
  let s := Examples.selection_of [1] (mkRect 0 0 10 10) in
  let s' := fst (snd (set_height 2.5 (s, Examples.scene))) in
  scaleY s' = Num 0.25 /\ height s' = 2.5%float.
Proof.
  intros s s'.
  pose proof (set_height_then_height s Examples.scene 0 2.5 eq_refl) as T.
  cbv zeta in T. fold s' in T. destruct T as (_ & T1 & T2).
  split.
  - rewrite T1. reflexivity.
  - rewrite T2. reflexivity.
Defined.

(** X19. On a selection that holds a GUI, the width setter never changes
    the height that is read, nor the height setter the width: each one
    replaces the scale of its own axis only. *)
Theorem width_and_height_are_independent
    (s : Selection) (w : World) (g : nat) (W H : number) :
  _gui s = Some g ->
  height (fst (snd (set_width W (s, w)))) = height s
  /\ width (fst (snd (set_height H (s, w)))) = width s
  /\ scaleY (fst (snd (set_width W (s, w)))) = scaleY s
  /\ scaleX (fst (snd (set_height H (s, w)))) = scaleX s.
Proof. apply axes_independent. Qed.

Lemma width_and_height_are_independent_witness :
  let s := Examples.selection_of [1] (mkRect 0 0 10 10) in
  height (fst (snd (set_width 3 (s, Examples.scene)))) = height s.
Proof.
  intros s.
  apply (proj1 (width_and_height_are_independent s Examples.scene 0 3 3 eq_refl)).
Defined.

(** ** The origin and position setters *)

(** X21. On a selection that holds a GUI, has no matrix and has finite
    numbers other than [-0] in its transformation, the origin getter
    returns the pivot [(originX, originY)] itself, and the origin setter
    adds to [x] and [y] the difference between the point it is given and
    that pivot; it leaves [originX], [originY], the scales and the rotation
    as they are, so the origin read afterwards is the same point as
    before. *)
Theorem set_origin_shifts_translation
    (s : Selection) (w : World) (g : nat)
    (x0 y0 ox oy : number) (sx sy rot : value) (o : Point) :
  _gui s = Some g ->
  _matrix s = None ->
  finite (Num x0) -> finite (Num y0) ->
  finite sx -> finite sy -> finite rot ->
  finite (Num ox) -> finite (Num oy) ->
  _transformation s =
    Transform.mkTransformation (Num x0) (Num y0) sx sy rot (Num ox) (Num oy) ->
  let s' := fst (snd (set_origin o (s, w))) in
  origin s = mkPoint ox oy
  /\ _transformation s' =
       Transform.mkTransformation
         (Num (add x0 (sub (px o) ox))) (Num (add y0 (sub (py o) oy)))
         sx sy rot (Num ox) (Num oy)
  /\ origin s' = origin s.
Proof.
  intros Hg Hm Fx Fy Fsx Fsy Frot Fox Foy Ht s'. subst s'.
  assert (Ho : origin s = mkPoint ox oy).
  { unfold origin. now rewrite Hm, Ht. }
  assert (Hc : Transform.json_copy (_transformation s) = _transformation s).
  { apply json_copy_finite. rewrite Ht. repeat split; assumption. }
  unfold set_origin, bind, this. cbn [fst snd].
  rewrite (updateTransformation_run s w g _ Hg). cbn [fst snd].
  rewrite Ho. unfold transformation. rewrite Hc, Ht. cbn.
  split; [reflexivity|]. split; [reflexivity|].
  unfold origin. cbn. now rewrite Hm.
Qed.

Lemma set_origin_shifts_translation_witness :
  let s := Examples.selection_of [1] (mkRect 0 0 10 10) in
  origin (fst (snd (set_origin (mkPoint 7 7) (s, Examples.scene)))) = origin s.
Proof.
  intros s.
  apply (set_origin_shifts_translation s Examples.scene 0 0 0 5 5
           (Num 1) (Num 1) (Num 0) (mkPoint 7 7));
    try reflexivity; apply finite_number; reflexivity.
Defined.

(** X22. On a selection that holds a GUI, has no matrix and has finite
    numbers other than [-0] in its transformation, the position setter
    adds to [x] and [y] the difference between the point it is given and
    the top-left corner of the untransformed bounds, and leaves every
    other field of the transformation as it is. *)
Theorem set_position_shifts_translation
    (s : Selection) (w : World) (g : nat)
    (x0 y0 : number) (sx sy rot ox oy : value) (p : Point) :
  _gui s = Some g ->
  _matrix s = None ->
  finite (Num x0) -> finite (Num y0) ->
  finite sx -> finite sy -> finite rot -> finite ox -> finite oy ->
  _transformation s =
    Transform.mkTransformation (Num x0) (Num y0) sx sy rot ox oy ->
  let s' := fst (snd (set_position p (s, w))) in
  _transformation s' =
    Transform.mkTransformation
      (Num (add x0 (sub (px p) (rx (_untransformedBounds s)))))
      (Num (add y0 (sub (py p) (ry (_untransformedBounds s)))))
      sx sy rot ox oy.
Proof.
  intros Hg Hm Fx Fy Fsx Fsy Frot Fox Foy Ht s'.
  subst s'.
  assert (Hc : Transform.json_copy (_transformation s) = _transformation s).
  { apply json_copy_finite. rewrite Ht. repeat split; assumption. }
  unfold set_position, bind, this. cbn [fst snd].
  rewrite (updateTransformation_run s w g _ Hg). cbn [fst snd].
  unfold position, transformation. rewrite Hm, Hc, Ht. reflexivity.
Qed.

Lemma set_position_shifts_translation_witness :
  let s := Examples.selection_of [1] (mkRect 0 0 10 10) in
  Transform.x (_transformation (fst (snd (set_position (mkPoint 7 8) (s, Examples.scene))))) =
  Num (add 0 (sub 7 0)).
Proof.
  intros s.
  pose proof (set_position_shifts_translation s Examples.scene 0 0 0
                (Num 1) (Num 1) (Num 0) (Num 5) (Num 5)
                (mkPoint 7 8) eq_refl eq_refl) as T.
  cbv zeta in T. rewrite T; try reflexivity; apply finite_number; reflexivity.
Defined.

(** ** What stays fixed for the life of a selection *)












Lemma keeps_world_set_children l ch : keeps_world (set_children l ch).
Proof. intros w. repeat split. Qed.














(** ** What the constructor does to its collaborators *)

(** X24. The constructor returns; it logs once, builds exactly one GUI, to
    which it hands the items, the transformation with its origin already
    filled in and the untransformed bounds, and adds that GUI to the layer
    (the one given, else the active layer) only when there is at least one
    item. *)
Theorem constructor_builds_one_gui (args : option Args) (w : World) :
  let a := match args with Some a => a | None => no_args end in
  let r := new_Selection args w in
  let s := fst (snd r) in
  let w' := snd (snd r) in
  fst r = Return tt
  /\ _layer s = match arg_layer a with Some l => l | None => activeLayer w end
  /\ _lockScalingToAspectRatio s = false
  /\ trace w' =
       trace w
       ++ [console_log "Created Selection";
           SelectionGUI_new (next_gui w) (_items s) (_transformation s)
                            (_untransformedBounds s)]
       ++ match _items s with
          | [] => []
          | _ => [Layer_addChild (_layer s) (next_gui w)]
          end.
Proof.
  cbv zeta. unfold new_Selection. run.
  destruct (match arg_items _ with Some l => l | None => [] end);
    cbn; rewrite <- !app_assoc; repeat split.
Qed.

(** ** More on reading attributes *)

(** X25. On a selection that is not empty, [getPathAttribute] (and so the
    [fillColor], [strokeColor] and [strokeWidth] getters) returns the
    attribute of the first item, whatever the other items hold, reports
    nothing and changes nothing. *)
Theorem getPathAttribute_reads_first_item
    (s : Selection) (w : World) (i : Item) (rest : list Item) (name : string) :
  _items s = i :: rest ->
  getPathAttribute name (s, w) = (Return (item_attr w i name), (s, w))
  /\ fillColor (s, w) = (Return (item_attr w i "fillColor"), (s, w))
  /\ strokeColor (s, w) = (Return (item_attr w i "strokeColor"), (s, w))
  /\ strokeWidth (s, w) = (Return (item_attr w i "strokeWidth"), (s, w)).
Proof.
  intros H.
  assert (G : forall n, getPathAttribute n (s, w) = (Return (item_attr w i n), (s, w))).
  { intros n. unfold getPathAttribute, bind, this, world, items. cbn [fst snd].
    rewrite H. reflexivity. }
  repeat split; apply G.
Qed.

Lemma getPathAttribute_reads_first_item_witness :
  let s := Examples.selection_of [2; 3] (mkRect 20 20 10 10) in
  fillColor (s, Examples.scene) = (Return attr_undefined, (s, Examples.scene)).
Proof.
  intros s.
  apply (getPathAttribute_reads_first_item s Examples.scene 2 [3] "fillColor" eq_refl).
Defined.

(** X26. The top-left corner of the rectangle that [_getBoundsOfItems]
    returns depends only on which items it is given: two sequences with
    the same members, in whatever order and however often repeated, have
    bounds with the same top-left corner. *)
Theorem getBoundsOfItems_same_members (w : World) (l1 l2 : list Item) :
  (forall i, In i l1 <-> In i l2) ->
  topLeft (Selection._getBoundsOfItems w l1) = topLeft (Selection._getBoundsOfItems w l2).
Proof.
  intros H.
  destruct l1 as [|a t1].
  - destruct l2 as [|b t2]; [reflexivity|].
    exfalso. apply (H b). now left.
  - assert (N1 : a :: t1 <> []) by discriminate.
    assert (N2 : l2 <> []).
    { intros ->. apply (H a). now left. }
    destruct (getBoundsOfItems_edge_least w rx _ (fun _ _ => eq_refl) N1)
      as (X1 & i1 & I1 & E1).
    destruct (getBoundsOfItems_edge_least w rx _ (fun _ _ => eq_refl) N2)
      as (X2 & i2 & I2 & E2).
    destruct (getBoundsOfItems_edge_least w ry _ (fun _ _ => eq_refl) N1)
      as (Y1 & j1 & J1 & F1).
    destruct (getBoundsOfItems_edge_least w ry _ (fun _ _ => eq_refl) N2)
      as (Y2 & j2 & J2 & F2).
    unfold topLeft. f_equal.
    + apply Math_min_antisym.
      * rewrite E2. apply X1. now apply H.
      * rewrite E1. apply X2. now apply H.
    + apply Math_min_antisym.
      * rewrite F2. apply Y1. now apply H.
      * rewrite F1. apply Y2. now apply H.
Qed.

Lemma getBoundsOfItems_same_members_witness :
  topLeft (Selection._getBoundsOfItems Examples.scene [1; 2; 1]) =
  topLeft (Selection._getBoundsOfItems Examples.scene [2; 1]).
Proof.
  apply (getBoundsOfItems_same_members Examples.scene [1; 2; 1] [2; 1]).
  intros i. cbn. intuition.
Defined.

(** ** Calling bringToFront or sendToBack again *)

Lemma filter_idem {A} (f : A -> bool) l : filter f (filter f l) = filter f l.
Proof.
  induction l as [|x t IH]; cbn; [reflexivity|].
  destruct (f x) eqn:E; cbn; [now rewrite E, IH | exact IH].
Qed.

Lemma filter_neg_nil {A} (f : A -> bool) l : filter f (filter (fun x => negb (f x)) l) = [].
Proof.
  induction l as [|x t IH]; cbn; [reflexivity|].
  destruct (f x) eqn:E; cbn; [exact IH | now rewrite E].
Qed.

Lemma filter_neg_nil' {A} (f : A -> bool) l : filter (fun x => negb (f x)) (filter f l) = [].
Proof.
  induction l as [|x t IH]; cbn; [reflexivity|].
  destruct (f x) eqn:E; cbn; [now rewrite E | exact IH].
Qed.

Lemma front_back_children s w L (front : bool) :
  _items s <> [] ->
  NoDup (_items s) ->
  NoDup (layer_children w L) ->
  (forall i, In i (_items s) ->
             item_layer w i = Some L /\ In i (layer_children w L)) ->
  let r := if front then Selection.bringToFront (s, w) else Selection.sendToBack (s, w) in
  let sel := filter (fun j => mem j (_items s)) (layer_children w L) in
  let other := filter (fun j => negb (mem j (_items s))) (layer_children w L) in
  fst (snd r) = s
  /\ layer_children (snd (snd r)) L = (if front then other ++ sel else sel ++ other)
  /\ item_layer (snd (snd r)) = item_layer w.
Proof.
  intros Hne Hnd Hc H. cbv zeta.
  assert (Hs : NoDup (_sortItemsByZIndex w (_items s)))
    by (eapply Permutation_NoDup; [symmetry; apply sort_perm | exact Hnd]).
  assert (Hl : forall i, In i (_sortItemsByZIndex w (_items s)) -> item_layer w i = Some L).
  { intros i Hi. apply H. eapply Permutation_in; [apply sort_perm | exact Hi]. }
  destruct front.
  - rewrite (bringToFront_run s w L Hne (fun i Hi => proj1 (H i Hi))). cbn [fst snd].
    destruct (bringToFront_fold _ Hs w L Hl) as (E & Li & _).
    split; [reflexivity|]. split; [|exact Li].
    rewrite E, (filter_ext _ _ (not_mem_sorted w (_items s))).
    now rewrite (sort_is_filter w L (_items s) Hnd Hc H).
  - rewrite (sendToBack_run s w L Hne (fun i Hi => proj1 (H i Hi))). cbn [fst snd].
    destruct (sendToBack_fold (rev (_sortItemsByZIndex w (_items s)))) with (w := w) (L := L)
      as (E & Li & _).
    { now apply NoDup_rev. }
    { intros i Hi. apply Hl. now apply in_rev. }
    split; [reflexivity|]. split; [|exact Li].
    rewrite E, rev_involutive.
    f_equal; [exact (sort_is_filter w L (_items s) Hnd Hc H)|].
    apply filter_ext. intros j. f_equal. apply eq_true_iff_eq.
    rewrite !mem_In. split; intros Hj.
    + apply in_rev in Hj. eapply Permutation_in; [apply sort_perm | exact Hj].
    + apply in_rev. rewrite rev_involutive.
      eapply Permutation_in; [symmetry; apply sort_perm | exact Hj].
Qed.

(** X27. For a selection without repeated items, all children of one
    layer that has no repeated child, a second [bringToFront()] changes
    nothing, and likewise a second [sendToBack()]; and whichever of the two
    is called last decides: [sendToBack()] after [bringToFront()] gives the
    children that [sendToBack()] alone gives. *)
Theorem bringToFront_sendToBack_again (s : Selection) (w : World) (L : nat) :
  _items s <> [] ->
  NoDup (_items s) ->
  NoDup (layer_children w L) ->
  (forall i, In i (_items s) ->
             item_layer w i = Some L /\ In i (layer_children w L)) ->
  let front := snd (Selection.bringToFront (s, w)) in
  let back := snd (Selection.sendToBack (s, w)) in
  layer_children (snd (snd (Selection.bringToFront front))) L =
    layer_children (snd front) L
  /\ layer_children (snd (snd (Selection.sendToBack back))) L =
       layer_children (snd back) L
  /\ layer_children (snd (snd (Selection.sendToBack front))) L =
       layer_children (snd back) L.
Proof.
  intros Hne Hnd Hc H front back.
  destruct (front_back_children s w L true Hne Hnd Hc H) as (F1 & F2 & F3).
  destruct (front_back_children s w L false Hne Hnd Hc H) as (B1 & B2 & B3).
  cbv zeta in F1, F2, F3, B1, B2, B3. fold front in F1, F2, F3. fold back in B1, B2, B3.
  set (sel := filter (fun j => mem j (_items s)) (layer_children w L)) in *.
  set (other := filter (fun j => negb (mem j (_items s))) (layer_children w L)) in *.
  assert (Hperm : Permutation (other ++ sel) (layer_children w L)).
  { unfold other, sel. clear. induction (layer_children w L) as [|x t IH]; cbn; [constructor|].
    destruct (mem x (_items s)); cbn.
    - rewrite <- Permutation_middle. now apply perm_skip.
    - now apply perm_skip. }
  assert (Hperm' : Permutation (sel ++ other) (layer_children w L)).
  { rewrite Permutation_app_comm. exact Hperm. }
  assert (again : forall st (b : bool) ch,
             fst st = s -> item_layer (snd st) = item_layer w ->
             layer_children (snd st) L = ch -> Permutation ch (layer_children w L) ->
             layer_children
               (snd (snd (if b then Selection.bringToFront st else Selection.sendToBack st))) L =
             if b
             then filter (fun j => negb (mem j (_items s))) ch
                  ++ filter (fun j => mem j (_items s)) ch
             else filter (fun j => mem j (_items s)) ch
                  ++ filter (fun j => negb (mem j (_items s))) ch).
  { intros [s1 w1] b ch E1 E2 E3 E4. cbn in E1, E2, E3. subst s1.
    destruct (front_back_children s w1 L b Hne Hnd) as (_ & G & _).
    - rewrite E3. eapply Permutation_NoDup; [symmetry; exact E4 | exact Hc].
    - intros i Hi. rewrite E2, E3. destruct (H i Hi) as [A B]. split; [exact A|].
      eapply Permutation_in; [symmetry; exact E4 | exact B].
    - cbv zeta in G. rewrite G, E3. now destruct b. }
  split; [|split].
  - rewrite (again front true _ F1 F3 F2 Hperm), F2.
    rewrite !filter_app. unfold sel, other.
    now rewrite !filter_idem, filter_neg_nil, filter_neg_nil', app_nil_r.
  - rewrite (again back false _ B1 B3 B2 Hperm'), B2.
    rewrite !filter_app. unfold sel, other.
    now rewrite !filter_idem, filter_neg_nil, filter_neg_nil', app_nil_r.
  - rewrite (again front false _ F1 F3 F2 Hperm), B2.
    rewrite !filter_app. unfold sel, other.
    now rewrite !filter_idem, filter_neg_nil, filter_neg_nil', app_nil_r.
Qed.

Lemma bringToFront_sendToBack_again_witness :
  let s := Examples.selection_of [5; 1] (mkRect 0 0 10 10) in
  let front := snd (Selection.bringToFront (s, Examples.scene5)) in
  layer_children (snd (snd (Selection.bringToFront front))) 0 =
  layer_children (snd front) 0.
Proof.
  intros s front.
  apply (bringToFront_sendToBack_again s Examples.scene5 0).
  - discriminate.
  - repeat constructor; cbn; intuition lia.
  - cbn. repeat constructor; cbn; intuition lia.
  - cbn. intros i [<-|[<-|[]]]; split; auto 6.
Defined.
